(** * cbor_decode: a shallow embedding of src/cbor_decode.c

    The decoding primitives of [src/src/cbor_decode.c] are embedded as
    functions over an explicit decoder state.  The C functions mutate
    [*pp_payload] (the cursor) and [*p_elem_count] (the decode budget)
    through pointers; here both live in a [state] record that every
    function takes and returns.  The input memory is an immutable map
    from addresses to bytes, and every load from it is recorded in the
    ghost field [reads], so that statements about which addresses a
    decoder touches can be made.

    Conventions:
    - addresses are integers, and a pointer of the target is 32 bits wide
      (see the next item).  The sums [value_extract] forms are compared
      with the end pointer before the cursor is moved and are left as
      they are; the two sums that move the cursor over a payload with no
      comparison ([strx_decode], [any_decode]) can leave the address
      space and are reduced modulo [2^32], as the 32-bit pointer is;
    - [size_t] and [uint32_t] are 32 bits wide (the source carries
      [_Static_assert (sizeof(size_t) == sizeof(uint32_t))]); arithmetic
      that can wrap is written with [mod];
    - the build flag [CONFIG_BIG_ENDIAN] is a boolean parameter, and both
      branches of every [#ifdef] are embedded;
    - the header [cbor_decode.h] is absent: the string type and the
      diagnostic hooks it declares are modelled where they are first
      needed. *)

From Stdlib Require Import ZArith Lia Bool List.
From Stdlib Require Import Strings.Byte.
From stdpp Require Import base tactics option list.
Import ListNotations.

Local Open Scope Z_scope.

(** ** Constants and macros *)

Definition CBOR_MAJOR_TYPE_PINT : Z := 0.
Definition CBOR_MAJOR_TYPE_NINT : Z := 1.
Definition CBOR_MAJOR_TYPE_BSTR : Z := 2.
Definition CBOR_MAJOR_TYPE_TSTR : Z := 3.
Definition CBOR_MAJOR_TYPE_LIST : Z := 4.
Definition CBOR_MAJOR_TYPE_MAP  : Z := 5.
Definition CBOR_MAJOR_TYPE_TAG  : Z := 6.
Definition CBOR_MAJOR_TYPE_PRIM : Z := 7.

(** [additional_len]: the [switch] on the additional value. *)
Definition additional_len (additional : Z) : Z :=
  if additional =? 24 then 1
  else if additional =? 25 then 2
  else if additional =? 26 then 4
  else if additional =? 27 then 8
  else 0.

(** [#define MAJOR_TYPE(header_byte) ((header_byte) >> 5) & 0x7] *)
Definition MAJOR_TYPE (header_byte : Z) : Z :=
  Z.land (Z.shiftr header_byte 5) 0x7.

(** [#define ADDITIONAL(header_byte) (header_byte) & 0x1F] *)
Definition ADDITIONAL (header_byte : Z) : Z :=
  Z.land header_byte 0x1F.

Definition VALUE_IN_HEADER : Z := 23.
Definition BOOL_TO_PRIM : Z := 20.

(** [PTR_VALUE_IN_RANGE(type, p_res, p_min, p_max)] for the integer
    types.  A [NULL] bound is [None]; a bound that is present holds the
    value read through the pointer at the given type. *)
Definition PTR_VALUE_IN_RANGE (res : Z) (p_min p_max : option Z) : bool :=
  match p_min with None => true | Some m => res >=? m end
  && match p_max with None => true | Some m => res <=? m end.

(** ** Fixed-width integers and their bytes *)

Definition UINT32_MOD : Z := 2 ^ 32.

(** Conversion of an unsigned 32-bit pattern to [int32_t]. *)
Definition to_int32 (u : Z) : Z :=
  let u := u mod UINT32_MOD in
  if u <? 2 ^ 31 then u else u - UINT32_MOD.

(** Conversion to [uint8_t]. *)
Definition to_uint8 (v : Z) : Z := v mod 256.

(** Value of a byte sequence read least significant byte first. *)
Fixpoint le_value (l : list Z) : Z :=
  match l with
  | [] => 0
  | b :: t => b + 256 * le_value t
  end.

(** Value of a byte sequence read most significant byte first. *)
Definition be_value (l : list Z) : Z := le_value (reverse l).

(** The [n] low-order bytes of [v], least significant first. *)
Fixpoint le_bytes (n : nat) (v : Z) : list Z :=
  match n with
  | O => []
  | S n' => v mod 256 :: le_bytes n' (v / 256)
  end.

(** IEEE 754 binary64 comparison [a <= b] on bit patterns: false when
    either side is a NaN, otherwise the order of the sign-magnitude
    integers (so that [-0 <= +0] and [+0 <= -0]). *)
Definition double_is_nan (a : Z) : bool :=
  let a := a mod 2 ^ 64 in
  ((a / 2 ^ 52) mod 2048 =? 2047) && negb (a mod 2 ^ 52 =? 0).

Definition double_key (a : Z) : Z :=
  let a := a mod 2 ^ 64 in
  if a <? 2 ^ 63 then a else - (a - 2 ^ 63).

Definition double_leb (a b : Z) : bool :=
  negb (double_is_nan a) && negb (double_is_nan b)
  && (double_key a <=? double_key b).

(** [PTR_VALUE_IN_RANGE(double, ...)]: [res >= min] is [min <= res]. *)
Definition PTR_DOUBLE_IN_RANGE (res : Z) (p_min p_max : option Z) : bool :=
  match p_min with None => true | Some m => double_leb m res end
  && match p_max with None => true | Some m => double_leb res m end.

(** ** Decoder state *)

Record state := mkState {
  p_payload  : Z;       (* *pp_payload: the cursor *)
  elem_count : Z;       (* *p_elem_count: the decode budget *)
  reads      : list Z   (* ghost: addresses loaded so far, newest first *)
}.

(** [( *pp_payload) += n] *)
Definition advance (n : Z) (st : state) : state :=
  mkState (p_payload st + n) (elem_count st) (reads st).

(** [( *pp_payload) += n] where [n] is a payload length taken from the
    input and nothing bounds the sum: the pointer is 32 bits wide, an [n]
    of type [uint64_t] is truncated to that width, and a sum that leaves
    the address space wraps. *)
Definition advance_payload (n : Z) (st : state) : state :=
  mkState ((p_payload st + n) mod UINT32_MOD) (elem_count st) (reads st).

(** [( *p_elem_count)--] on a [size_t]. *)
Definition decr_elem_count (st : state) : state :=
  mkState (p_payload st) ((elem_count st - 1) mod UINT32_MOD) (reads st).

(** Modelled from the spec: the macros [cbor_decode_trace],
    [cbor_decode_print] and [cbor_decode_assert] are defined in the absent
    header [cbor_decode.h].  The spec has them as a diagnostic hook that
    "may be invoked on failure for observability only, with no effect on
    behavior": the trace leaves the state alone, and the print and the
    assertion are left out. *)
Definition cbor_decode_trace (st : state) : state := st.

(** [FAIL()]: trace, then [return false].  [r] is what the result pointer
    holds at that moment. *)
Definition FAIL {A : Type} (st : state) (r : A) : bool * state * A :=
  (false, cbor_decode_trace st, r).

(** The body of [FAIL_AND_DECR_IF]: [( *pp_payload)--; FAIL();]. *)
Definition FAIL_AND_DECR {A : Type} (st : state) (r : A) : bool * state * A :=
  FAIL (advance (-1) st) r.

(** Modelled from the spec: the type [cbor_string_type_t] is declared in
    the absent header [cbor_decode.h]; the spec's "String view" is a pair
    (length, pointer into the input buffer). *)
Record cbor_string_type_t := mkString {
  len   : Z;   (* size_t *)
  value : Z    (* const uint8_t * *)
}.

Section Decoder.

(** Build-time byte order of the target. *)
Variable CONFIG_BIG_ENDIAN : bool.

(** The memory the payload pointer ranges over. *)
Variable mem : Z -> byte.

(** A one-byte load from the payload memory, recorded in [reads]. *)
Definition load_u8 (a : Z) (st : state) : Z * state :=
  (Z.of_N (Byte.to_N (mem a)),
   mkState (p_payload st) (elem_count st) (a :: reads st)).

(** [**pp_payload] *)
Definition deref (st : state) : Z * state := load_u8 (p_payload st) st.

(** Reading an integer object of the host through its bytes. *)
Definition load (bytes : list Z) : Z :=
  if CONFIG_BIG_ENDIAN then be_value bytes else le_value bytes.

(** The [n] bytes of an integer object of the host holding [v]. *)
Definition store (n : nat) (v : Z) : list Z :=
  if CONFIG_BIG_ENDIAN then reverse (le_bytes n v) else le_bytes n v.

(** The little-endian copy loop of [value_extract]:
    [for (i = 0; i < len; i++) p_u8_result[i] = ( *pp_payload)[len - i - 1];]
    with [n] the iterations that remain. *)
Fixpoint copy_reversed (n : nat) (i len : Z) (st : state)
    (p_u8_result : list Z) : state * list Z :=
  match n with
  | O => (st, p_u8_result)
  | S n' =>
      let '(b, st) := load_u8 (p_payload st + (len - i - 1)) st in
      copy_reversed n' (i + 1) len st (<[Z.to_nat i := b]> p_u8_result)
  end.

(** [memcpy(&p_u8_result[dst], *pp_payload, len)], byte [j] onwards, with
    [n] the bytes that remain. *)
Fixpoint memcpy (n : nat) (j dst : Z) (st : state)
    (p_u8_result : list Z) : state * list Z :=
  match n with
  | O => (st, p_u8_result)
  | S n' =>
      let '(b, st) := load_u8 (p_payload st + j) st in
      memcpy n' (j + 1) dst st (<[Z.to_nat (dst + j) := b]> p_u8_result)
  end.

(** [value_extract].  [p_result] is the content of the [result_len] bytes
    at the result pointer before the call ([result_len] is its length);
    the last component of the outcome is their content after the call.
    A store outside the buffer (only possible with [result_len = 0], or
    never, given the width check) is dropped by stdpp's insert. *)
Definition value_extract (st : state) (p_payload_end : Z)
    (p_result : list Z) : bool * state * list Z :=
  let result_len := Z.of_nat (length p_result) in
  let '(header_byte, st) := deref st in
  let additional := ADDITIONAL header_byte in
  let st := advance 1 st in
  let st := cbor_decode_trace st in
  if elem_count st =? 0 then FAIL_AND_DECR st p_result else
  if p_payload st >? p_payload_end then FAIL_AND_DECR st p_result else
  let p_result := replicate (length p_result) 0 in
  let p_result :=
    if CONFIG_BIG_ENDIAN
    then <[Z.to_nat (result_len - 1) := additional]> p_result
    else <[0%nat := additional]> p_result in
  if additional >? VALUE_IN_HEADER then
    let len := additional_len additional in
    if len >? result_len then FAIL_AND_DECR st p_result else
    if p_payload st + len >? p_payload_end
    then FAIL_AND_DECR st p_result else
    let '(st, p_result) :=
      if CONFIG_BIG_ENDIAN
      then memcpy (Z.to_nat len) 0 (result_len - len) st p_result
      else copy_reversed (Z.to_nat len) 0 len st p_result in
    let st := advance len st in
    (true, decr_elem_count st, p_result)
  else
    (true, decr_elem_count st, p_result).

(** [int32_decode].  [p_result] is the value of [*p_result] before the
    call, the last component of the outcome its value after. *)
Definition int32_decode (st : state) (p_payload_end : Z) (p_result : Z)
    (p_min_value p_max_value : option Z) : bool * state * Z :=
  let '(header_byte, st) := deref st in
  let major_type := MAJOR_TYPE header_byte in
  let '(ok, st, bytes) := value_extract st p_payload_end (store 4 p_result) in
  let p_result := to_int32 (load bytes) in
  if negb ok then FAIL st p_result else
  if p_result <? 0 then FAIL st p_result else
  let p_result :=
    if major_type =? CBOR_MAJOR_TYPE_NINT
    then to_int32 (1 - p_result) else p_result in
  if negb (PTR_VALUE_IN_RANGE p_result p_min_value p_max_value)
  then FAIL st p_result
  else (true, st, p_result).

(** [intx32_decode] *)
Definition intx32_decode (st : state) (p_payload_end : Z) (p_result : Z)
    (p_min_value p_max_value : option Z) : bool * state * Z :=
  let '(header_byte, st) := deref st in
  let major_type := MAJOR_TYPE header_byte in
  if negb (major_type =? CBOR_MAJOR_TYPE_PINT)
     && negb (major_type =? CBOR_MAJOR_TYPE_NINT)
  then FAIL st p_result
  else
    let '(ok, st, p_result) :=
      int32_decode st p_payload_end p_result p_min_value p_max_value in
    if negb ok then FAIL st p_result else (true, st, p_result).

(** [uint32_decode]; the result pointer is a [void *] to a 32-bit
    unsigned object. *)
Definition uint32_decode (st : state) (p_payload_end : Z) (p_result : Z)
    (p_min_value p_max_value : option Z) : bool * state * Z :=
  let '(ok, st, bytes) := value_extract st p_payload_end (store 4 p_result) in
  let p_result := load bytes in
  if negb ok then FAIL st p_result else
  if negb (PTR_VALUE_IN_RANGE p_result p_min_value p_max_value)
  then FAIL st p_result
  else (true, st, p_result).

(** [uintx32_decode] *)
Definition uintx32_decode (st : state) (p_payload_end : Z) (p_result : Z)
    (p_min_value p_max_value : option Z) : bool * state * Z :=
  let '(header_byte, st) := deref st in
  let major_type := MAJOR_TYPE header_byte in
  if negb (major_type =? CBOR_MAJOR_TYPE_PINT) then FAIL st p_result
  else
    let '(ok, st, p_result) :=
      uint32_decode st p_payload_end p_result p_min_value p_max_value in
    if negb ok then FAIL st p_result else (true, st, p_result).

(** [size_decode] *)
Definition size_decode (st : state) (p_payload_end : Z) (p_result : Z)
    (p_min_value p_max_value : option Z) : bool * state * Z :=
  uint32_decode st p_payload_end p_result p_min_value p_max_value.

(** [strx_start_decode] *)
Definition strx_start_decode (st : state) (p_payload_end : Z)
    (p_result : cbor_string_type_t) (p_min_len p_max_len : option Z)
    : bool * state * cbor_string_type_t :=
  let '(header_byte, st) := deref st in
  let major_type := MAJOR_TYPE header_byte in
  if negb (major_type =? CBOR_MAJOR_TYPE_BSTR)
     && negb (major_type =? CBOR_MAJOR_TYPE_TSTR)
  then FAIL st p_result
  else
    let '(ok, st, l) :=
      size_decode st p_payload_end (len p_result) p_min_len p_max_len in
    let p_result := mkString l (value p_result) in
    if negb ok then FAIL st p_result
    else (true, st, mkString (len p_result) (p_payload st)).

(** [strx_decode] *)
Definition strx_decode (st : state) (p_payload_end : Z)
    (p_result : cbor_string_type_t) (p_min_len p_max_len : option Z)
    : bool * state * cbor_string_type_t :=
  let '(ok, st, p_result) :=
    strx_start_decode st p_payload_end p_result p_min_len p_max_len in
  if negb ok then (false, st, p_result)
  else (true, advance_payload (len p_result) st, p_result).

(** [list_start_decode]; the bounds are passed by value and their
    addresses handed on, so both are always present. *)
Definition list_start_decode (st : state) (p_payload_end : Z) (p_result : Z)
    (min_num max_num : Z) : bool * state * Z :=
  let '(header_byte, st) := deref st in
  let major_type := MAJOR_TYPE header_byte in
  if negb (major_type =? CBOR_MAJOR_TYPE_LIST)
     && negb (major_type =? CBOR_MAJOR_TYPE_MAP)
  then FAIL st p_result
  else
    let '(ok, st, p_result) :=
      uint32_decode st p_payload_end p_result (Some min_num) (Some max_num) in
    if negb ok then FAIL st p_result else (true, st, p_result).

(** [primx_decode].  [p_result] is [None] for a [NULL] destination and
    otherwise holds the [uint8_t] it points to.  The local [val] is
    uninitialised in the source; [val0] stands for whatever it holds. *)
Definition primx_decode (val0 : Z) (st : state) (p_payload_end : Z)
    (p_result : option Z) (p_min_result p_max_result : option Z)
    : bool * state * option Z :=
  let '(header_byte, st) := deref st in
  let major_type := MAJOR_TYPE header_byte in
  if negb (major_type =? CBOR_MAJOR_TYPE_PRIM) then FAIL st p_result
  else
    let '(ok, st, val) :=
      uint32_decode st p_payload_end val0 p_min_result p_max_result in
    if negb ok then FAIL st p_result
    else
      (true, st,
       match p_result with
       | Some _ => Some (to_uint8 val)
       | None => None
       end).

(** The 32-bit object that [uint32_decode] reads at the address of a
    one-byte local: the byte [b] and the three bytes [adjacent] that
    follow it in memory. *)
Definition widen_uint8 (b adjacent : Z) : Z :=
  load (b :: le_bytes 3 adjacent).

(** [boolx_decode].  [p_min_result] and [p_max_result] are the bytes read
    through the two bound pointers (which the source dereferences
    unconditionally); [p_result] is the byte of the [bool] destination.
    The locals [min_result] and [max_result] are one byte wide, yet their
    addresses reach [uint32_decode], which compares 32-bit objects:
    [min_adjacent] and [max_adjacent] stand for the bytes that follow the
    locals.  The final [-=] happens at type [bool]. *)
Definition boolx_decode (val0 min_adjacent max_adjacent : Z)
    (st : state) (p_payload_end : Z)
    (p_result : Z) (p_min_result p_max_result : Z) : bool * state * Z :=
  let min_result := to_uint8 (p_min_result + BOOL_TO_PRIM) in
  let max_result := to_uint8 (p_max_result + BOOL_TO_PRIM) in
  let '(ok, st, r) :=
    primx_decode val0 st p_payload_end (Some p_result)
      (Some (widen_uint8 min_result min_adjacent))
      (Some (widen_uint8 max_result max_adjacent)) in
  let p_result := default p_result r in
  if negb ok then FAIL st p_result
  else (true, st, if p_result - BOOL_TO_PRIM =? 0 then 0 else 1).

(** [double_decode]; a [double] is its 64-bit pattern. *)
Definition double_decode (st : state) (p_payload_end : Z) (p_result : Z)
    (p_min_result p_max_result : option Z) : bool * state * Z :=
  let '(header_byte, st) := deref st in
  let major_type := MAJOR_TYPE header_byte in
  if negb (major_type =? CBOR_MAJOR_TYPE_PRIM) then FAIL st p_result
  else
    let '(ok, st, bytes) :=
      value_extract st p_payload_end (store 8 p_result) in
    let p_result := load bytes in
    if negb ok then FAIL st p_result else
    if negb (PTR_DOUBLE_IN_RANGE p_result p_min_result p_max_result)
    then FAIL st p_result
    else (true, st, p_result).

(** [any_decode]; nothing is returned through [p_result].  [value0] is
    the content of the uninitialised local [value]. *)
Definition any_decode (value0 : Z) (st : state) (p_payload_end : Z)
    : bool * state :=
  let '(header_byte, st) := deref st in
  let major_type := MAJOR_TYPE header_byte in
  let '(ok, st, bytes) := value_extract st p_payload_end (store 8 value0) in
  if negb ok then (false, cbor_decode_trace st)
  else
    let value := load bytes in
    if (major_type =? CBOR_MAJOR_TYPE_BSTR)
       || (major_type =? CBOR_MAJOR_TYPE_TSTR)
       || (major_type =? CBOR_MAJOR_TYPE_LIST)
       || (major_type =? CBOR_MAJOR_TYPE_MAP)
    then (true, advance_payload value st)
    else (true, st).

End Decoder.

(** ** The repetition combinator *)

Section Multi.

(** The content of one result slot ([result_len] bytes of the caller's
    storage, read at the type the decoder expects). *)
Context {R : Type} `{!Inhabited R}.

(** [decoder_t]: the uniform callback signature. *)
Definition decoder_t : Type :=
  state -> Z -> R -> option Z -> option Z -> bool * state * R.

(** The [for] loop of [multi_decode] with [n] iterations left and loop
    counter [i].  [p_result] lists the slots of the caller's storage;
    slot [i] is the object at [(uint8_t * )p_result + i*result_len].  The
    outcome is the returned flag, [*p_num_decode], the state and the
    storage. *)
Fixpoint multi_decode_loop (n : nat) (i : Z) (min_decode max_decode : Z)
    (decoder : decoder_t) (st : state) (p_payload_end : Z)
    (p_result : list R) (p_min_result p_max_result : option Z)
    : bool * Z * state * list R :=
  match n with
  | O => (true, max_decode, st, p_result)
  | S n' =>
      let p_payload_bak := p_payload st in
      let elem_count_bak := elem_count st in
      let '(ok, st, r) :=
        decoder st p_payload_end (p_result !!! Z.to_nat i)
          p_min_result p_max_result in
      let p_result := <[Z.to_nat i := r]> p_result in
      if negb ok then
        let st := mkState p_payload_bak elem_count_bak (reads st) in
        if i <? min_decode then (false, i, cbor_decode_trace st, p_result)
        else (true, i, st, p_result)
      else
        multi_decode_loop n' (i + 1) min_decode max_decode decoder st
          p_payload_end p_result p_min_result p_max_result
  end.

(** [multi_decode] *)
Definition multi_decode (min_decode max_decode : Z) (decoder : decoder_t)
    (st : state) (p_payload_end : Z) (p_result : list R)
    (p_min_result p_max_result : option Z) : bool * Z * state * list R :=
  multi_decode_loop (Z.to_nat max_decode) 0 min_decode max_decode decoder st
    p_payload_end p_result p_min_result p_max_result.

(** Not in the source, used to state properties of the loop: the state
    and storage after [k] consecutive successful attempts of the callback
    starting at slot [i], if all of them succeed. *)
Fixpoint attempts (k : nat) (i : Z) (decoder : decoder_t) (st : state)
    (p_payload_end : Z) (p_result : list R)
    (p_min_result p_max_result : option Z) : option (state * list R) :=
  match k with
  | O => Some (st, p_result)
  | S k' =>
      let '(ok, st, r) :=
        decoder st p_payload_end (p_result !!! Z.to_nat i)
          p_min_result p_max_result in
      if ok then
        attempts k' (i + 1) decoder st p_payload_end
          (<[Z.to_nat i := r]> p_result) p_min_result p_max_result
      else None
  end.

End Multi.

Arguments decoder_t : clear implicits.

(** ** The decoders as a family *)

(** One call of a decoder of the file with its arguments other than the
    cursor, the end pointer and the budget. *)
Inductive decoder_call : Type :=
| call_value_extract (p_result : list Z)
| call_intx32_decode (p_result : Z) (p_min_value p_max_value : option Z)
| call_uintx32_decode (p_result : Z) (p_min_value p_max_value : option Z)
| call_strx_start_decode (p_result : cbor_string_type_t)
    (p_min_len p_max_len : option Z)
| call_strx_decode (p_result : cbor_string_type_t)
    (p_min_len p_max_len : option Z)
| call_list_start_decode (p_result : Z) (min_num max_num : Z)
| call_primx_decode (val0 : Z) (p_result : option Z)
    (p_min_result p_max_result : option Z)
| call_boolx_decode (val0 min_adjacent max_adjacent : Z) (p_result : Z)
    (p_min_result p_max_result : Z)
| call_double_decode (p_result : Z) (p_min_result p_max_result : option Z)
| call_any_decode (value0 : Z).

(** Running a call: the returned flag and the state it leaves. *)
Definition run_call (CONFIG_BIG_ENDIAN : bool) (mem : Z -> byte)
    (c : decoder_call) (st : state) (p_payload_end : Z) : bool * state :=
  match c with
  | call_value_extract r =>
      fst (value_extract CONFIG_BIG_ENDIAN mem st p_payload_end r)
  | call_intx32_decode r lo hi =>
      fst (intx32_decode CONFIG_BIG_ENDIAN mem st p_payload_end r lo hi)
  | call_uintx32_decode r lo hi =>
      fst (uintx32_decode CONFIG_BIG_ENDIAN mem st p_payload_end r lo hi)
  | call_strx_start_decode r lo hi =>
      fst (strx_start_decode CONFIG_BIG_ENDIAN mem st p_payload_end r lo hi)
  | call_strx_decode r lo hi =>
      fst (strx_decode CONFIG_BIG_ENDIAN mem st p_payload_end r lo hi)
  | call_list_start_decode r lo hi =>
      fst (list_start_decode CONFIG_BIG_ENDIAN mem st p_payload_end r lo hi)
  | call_primx_decode v r lo hi =>
      fst (primx_decode CONFIG_BIG_ENDIAN mem v st p_payload_end r lo hi)
  | call_boolx_decode v a b r lo hi =>
      fst (boolx_decode CONFIG_BIG_ENDIAN mem v a b st p_payload_end r lo hi)
  | call_double_decode r lo hi =>
      fst (double_decode CONFIG_BIG_ENDIAN mem st p_payload_end r lo hi)
  | call_any_decode v =>
      any_decode CONFIG_BIG_ENDIAN mem v st p_payload_end
  end.

(** The major types a call accepts ([value_extract] and [any_decode] do
    not look at the major type). *)
Definition accepts (c : decoder_call) (major_type : Z) : bool :=
  match c with
  | call_value_extract _ | call_any_decode _ => true
  | call_intx32_decode _ _ _ =>
      (major_type =? CBOR_MAJOR_TYPE_PINT)
      || (major_type =? CBOR_MAJOR_TYPE_NINT)
  | call_uintx32_decode _ _ _ => major_type =? CBOR_MAJOR_TYPE_PINT
  | call_strx_start_decode _ _ _ | call_strx_decode _ _ _ =>
      (major_type =? CBOR_MAJOR_TYPE_BSTR)
      || (major_type =? CBOR_MAJOR_TYPE_TSTR)
  | call_list_start_decode _ _ _ =>
      (major_type =? CBOR_MAJOR_TYPE_LIST)
      || (major_type =? CBOR_MAJOR_TYPE_MAP)
  | call_primx_decode _ _ _ _ | call_boolx_decode _ _ _ _ _ _
  | call_double_decode _ _ _ => major_type =? CBOR_MAJOR_TYPE_PRIM
  end.

(** The width in bytes of the result buffer a call hands to
    [value_extract]. *)
Definition result_width (c : decoder_call) : nat :=
  match c with
  | call_value_extract r => length r
  | call_double_decode _ _ _ | call_any_decode _ => 8
  | _ => 4
  end.

(** Calls that move the cursor over a payload after the extraction. *)
Definition skips_payload (c : decoder_call) : bool :=
  match c with
  | call_strx_decode _ _ _ | call_any_decode _ => true
  | _ => false
  end.

(** ** Vocabulary of the statements

    Nothing below embeds source code: these are the input buffers and
    the notions in which the properties are stated. *)

(** A memory holding [bytes] from address [0] on and [rest] elsewhere. *)
Definition buffer (bytes : list byte) (rest : Z -> byte) : Z -> byte :=
  fun a =>
    if (0 <=? a) && (a <? Z.of_nat (length bytes))
    then nth (Z.to_nat a) bytes x00
    else rest a.

(** The state at the start of a decode: cursor at address [0], nothing
    read yet. *)
Definition start (budget : Z) : state := mkState 0 budget [].

(** The byte of [mem] at address [a], as a number. *)
Definition byte_at (mem : Z -> byte) (a : Z) : Z := Z.of_N (Byte.to_N (mem a)).

(** The [n] consecutive addresses from [a] on. *)
Fixpoint addresses (a : Z) (n : nat) : list Z :=
  match n with
  | O => []
  | S n' => a :: addresses (a + 1) n'
  end.

(** The header byte at the cursor. *)
Definition header (mem : Z -> byte) (st : state) : Z :=
  byte_at mem (p_payload st).

(** The number of extension bytes a header with the given additional
    value announces. *)
Definition extension_len (additional : Z) : Z :=
  if additional >? VALUE_IN_HEADER then additional_len additional else 0.

(** The [n] bytes that follow the header byte at the cursor of [st]. *)
Definition extension (mem : Z -> byte) (st : state) (n : Z) : list Z :=
  map (byte_at mem) (addresses (p_payload st + 1) (Z.to_nat n)).

(** A result buffer of [n] bytes holding [additional] in the byte of
    lowest significance and zero elsewhere. *)
Definition header_only (CONFIG_BIG_ENDIAN : bool) (n : nat) (additional : Z)
    : list Z :=
  if CONFIG_BIG_ENDIAN
  then <[Z.to_nat (Z.of_nat n - 1) := additional]> (replicate n 0)
  else <[0%nat := additional]> (replicate n 0).

(** A result buffer of [n] bytes holding the big-endian sequence [ext] in
    its bytes of lowest significance and zero elsewhere. *)
Definition low_order (CONFIG_BIG_ENDIAN : bool) (n : nat) (ext : list Z)
    : list Z :=
  if CONFIG_BIG_ENDIAN
  then replicate (n - length ext) 0 ++ ext
  else reverse ext ++ replicate (n - length ext) 0.

(** The state after the header byte at the cursor has been loaded and
    nothing else has happened. *)
Definition header_loaded (st : state) : state :=
  mkState (p_payload st) (elem_count st) (p_payload st :: reads st).

(** The state after the header byte and [n] extension bytes have been
    consumed: the loads are logged in the order of the copy loop. *)
Definition extracted (CONFIG_BIG_ENDIAN : bool) (st : state) (n : Z) : state :=
  mkState (p_payload st + 1 + n) ((elem_count st - 1) mod UINT32_MOD)
    ((if CONFIG_BIG_ENDIAN
      then reverse (addresses (p_payload st + 1) (Z.to_nat n))
      else addresses (p_payload st + 1) (Z.to_nat n))
     ++ p_payload st :: reads st).

(** Whether [value_extract] with a result buffer of [w] bytes succeeds at
    [st]: budget left, header and extension before the end pointer,
    extension no wider than the buffer. *)
Definition extractable (mem : Z -> byte) (st : state) (p_payload_end : Z)
    (w : nat) : bool :=
  let n := extension_len (ADDITIONAL (header mem st)) in
  negb (elem_count st =? 0)
  && (p_payload st + 1 + n <=? p_payload_end)
  && (n <=? Z.of_nat w).

(** The value a header announces: its additional value, or the
    big-endian number in its extension bytes. *)
Definition header_value (mem : Z -> byte) (st : state) : Z :=
  let a := ADDITIONAL (header mem st) in
  if extension_len a =? 0 then a
  else be_value (extension mem st (extension_len a)).

(** The distance by which a successful call moves the cursor beyond the
    header and its extension. *)
Definition payload_skip (mem : Z -> byte) (c : decoder_call) (st : state)
    : Z :=
  match c with
  | call_strx_decode _ _ _ => header_value mem st
  | call_any_decode _ =>
      let major_type := MAJOR_TYPE (header mem st) in
      if (major_type =? CBOR_MAJOR_TYPE_BSTR)
         || (major_type =? CBOR_MAJOR_TYPE_TSTR)
         || (major_type =? CBOR_MAJOR_TYPE_LIST)
         || (major_type =? CBOR_MAJOR_TYPE_MAP)
      then header_value mem st
      else 0
  | _ => 0
  end.

(** Whether a successful call moves the cursor on by [payload_skip]:
    [strx_decode] always does, [any_decode] does for the major types of
    strings, lists and maps. *)
Definition moves_over_payload (mem : Z -> byte) (c : decoder_call)
    (st : state) : bool :=
  match c with
  | call_strx_decode _ _ _ => true
  | call_any_decode _ =>
      let major_type := MAJOR_TYPE (header mem st) in
      (major_type =? CBOR_MAJOR_TYPE_BSTR)
      || (major_type =? CBOR_MAJOR_TYPE_TSTR)
      || (major_type =? CBOR_MAJOR_TYPE_LIST)
      || (major_type =? CBOR_MAJOR_TYPE_MAP)
  | _ => false
  end.

(** The log [new] extends the log [old] by loads at address [p] and at
    addresses strictly between [p] and [hi]. *)
Definition logged (p hi : Z) (old new : list Z) : Prop :=
  exists l, new = l ++ old /\ Forall (fun a => a = p \/ p < a < hi) l.

(** Three unsigned integers, 1, 100 and 1000, and a byte of major type 7. *)
Definition three_uints : list byte :=
  [x01; x18; x64; x19; x03; xe8; xff].

(** The byte holding the value [z mod 256]. *)
Definition to_byte (z : Z) : byte :=
  match Byte.of_N (Z.to_N (z mod 256)) with
  | Some b => b
  | None => x00
  end.

(** Not in the source (the repository has no encoder): the shortest head
    of the wire format for major type [major_type] and argument [n], that
    is the header byte with [n] in its additional value when [n] is below
    24, and otherwise the header byte with additional value 24, 25, 26 or
    27 followed by [n] in 1, 2, 4 or 8 bytes, most significant first. *)
Definition encode_head (major_type n : Z) : list byte :=
  if n <? 24 then [to_byte (32 * major_type + n)]
  else if n <? 2 ^ 8
  then to_byte (32 * major_type + 24) :: map to_byte (reverse (le_bytes 1 n))
  else if n <? 2 ^ 16
  then to_byte (32 * major_type + 25) :: map to_byte (reverse (le_bytes 2 n))
  else if n <? 2 ^ 32
  then to_byte (32 * major_type + 26) :: map to_byte (reverse (le_bytes 4 n))
  else to_byte (32 * major_type + 27) :: map to_byte (reverse (le_bytes 8 n)).

(** Not in the source: the shortest encodings of the unsigned integers
    [ns], one after the other. *)
Definition encode_uints (ns : list Z) : list byte :=
  concat (map (encode_head CBOR_MAJOR_TYPE_PINT) ns).

(** A callback that, whenever it succeeds, has found the budget nonzero
    and has decremented it. *)
Definition consumes_budget {R : Type} (decoder : decoder_t R) : Prop :=
  forall st pend r lo hi st' r',
    decoder st pend r lo hi = (true, st', r') ->
    elem_count st <> 0
    /\ elem_count st' = (elem_count st - 1) mod UINT32_MOD.

(** * Properties *)

(** ** Bytes and header fields *)

Lemma byte_at_range mem a : 0 <= byte_at mem a < 256.
Proof.
  unfold byte_at. pose proof (Byte.to_N_bounded (mem a)). lia.
Qed.

Lemma ADDITIONAL_mod h : ADDITIONAL h = h mod 32.
Proof.
  unfold ADDITIONAL. change 0x1F with (Z.ones 5).
  rewrite Z.land_ones by lia. reflexivity.
Qed.

Lemma ADDITIONAL_range h : 0 <= ADDITIONAL h < 32.
Proof. rewrite ADDITIONAL_mod. apply Z.mod_pos_bound. lia. Qed.

Lemma MAJOR_TYPE_div h : MAJOR_TYPE h = (h / 32) mod 8.
Proof.
  unfold MAJOR_TYPE. change 0x7 with (Z.ones 3).
  rewrite Z.land_ones by lia. rewrite Z.shiftr_div_pow2 by lia. reflexivity.
Qed.

Lemma additional_len_cases a :
  (a = 24 /\ additional_len a = 1) \/ (a = 25 /\ additional_len a = 2) \/
  (a = 26 /\ additional_len a = 4) \/ (a = 27 /\ additional_len a = 8) \/
  (a <> 24 /\ a <> 25 /\ a <> 26 /\ a <> 27 /\ additional_len a = 0).
Proof.
  unfold additional_len.
  repeat (case_match; [lia|]). lia.
Qed.

Lemma extension_len_range a : 0 <= extension_len a <= 8.
Proof.
  unfold extension_len. pose proof (additional_len_cases a).
  case_match; lia.
Qed.

(** ** Byte sequences and their values *)

Lemma le_value_app l1 l2 :
  le_value (l1 ++ l2) = le_value l1 + 256 ^ Z.of_nat (length l1) * le_value l2.
Proof.
  induction l1 as [|b l1 IH]; simpl le_value; simpl length.
  - lia.
  - rewrite IH, Nat2Z.inj_succ, Z.pow_succ_r by lia. lia.
Qed.

Lemma le_value_zeros n : le_value (replicate n 0) = 0.
Proof. induction n as [|n IH]; simpl; lia. Qed.

Lemma le_value_range l :
  Forall (fun b => 0 <= b < 256) l ->
  0 <= le_value l < 256 ^ Z.of_nat (length l).
Proof.
  induction 1 as [|b l Hb _ IH]; simpl le_value; simpl length.
  - lia.
  - rewrite Nat2Z.inj_succ, Z.pow_succ_r by lia. lia.
Qed.

Lemma be_value_zeros_app n l : be_value (replicate n 0 ++ l) = be_value l.
Proof.
  unfold be_value. rewrite reverse_app, reverse_replicate, le_value_app.
  rewrite le_value_zeros. lia.
Qed.

Lemma load_low_order be n ext :
  load be (low_order be n ext) = be_value ext.
Proof.
  unfold load, low_order. destruct be.
  - apply be_value_zeros_app.
  - rewrite le_value_app, le_value_zeros. unfold be_value. lia.
Qed.


Lemma load_header_only be n a :
  (1 <= n)%nat -> load be (header_only be n a) = a.
Proof.
  intros Hn. destruct n as [|n]; [lia|].
  unfold load, header_only. destruct be.
  - replace (Z.to_nat (Z.of_nat (S n) - 1)) with n by lia.
    replace (replicate (S n) 0) with (replicate n 0 ++ [0]).
    + rewrite insert_app_r_alt by (rewrite length_replicate; lia).
      rewrite length_replicate, Nat.sub_diag. simpl.
      rewrite be_value_zeros_app. unfold be_value. simpl. lia.
    + change [0] with (replicate 1 0). rewrite <- replicate_add.
      f_equal. lia.
  - simpl. rewrite le_value_zeros. lia.
Qed.

Lemma length_header_only be n a : length (header_only be n a) = n.
Proof.
  unfold header_only.
  destruct be; rewrite length_insert, length_replicate; reflexivity.
Qed.

Lemma length_le_bytes n v : length (le_bytes n v) = n.
Proof.
  revert v. induction n as [|n IH]; intros v; simpl; [|rewrite IH]; reflexivity.
Qed.

Lemma length_store be n v : length (store be n v) = n.
Proof.
  unfold store. destruct be; rewrite ?length_reverse; apply length_le_bytes.
Qed.

(** ** The copy loops of [value_extract] *)

Lemma addresses_snoc a n :
  addresses a (S n) = addresses a n ++ [a + Z.of_nat n].
Proof.
  revert a. induction n as [|n IH]; intros a.
  - simpl. f_equal. lia.
  - change (addresses a (S (S n))) with (a :: addresses (a + 1) (S n)).
    rewrite IH. simpl. do 2 f_equal. f_equal. lia.
Qed.

Lemma length_addresses a n : length (addresses a n) = n.
Proof.
  revert a. induction n as [|n IH]; intros a; simpl; [|rewrite IH]; reflexivity.
Qed.

Lemma addresses_range a n :
  Forall (fun x => a <= x < a + Z.of_nat n) (addresses a n).
Proof.
  revert a. induction n as [|n IH]; intros a; simpl addresses.
  - constructor.
  - constructor; [lia|].
    eapply Forall_impl; [apply IH|]. simpl. intros x Hx. lia.
Qed.

Lemma copy_reversed_spec mem n : forall (i : nat) lenz st res,
  lenz = Z.of_nat (i + n) -> (i + n <= length res)%nat ->
  copy_reversed mem n (Z.of_nat i) lenz st res =
    (mkState (p_payload st) (elem_count st)
       (addresses (p_payload st) n ++ reads st),
     take i res
       ++ reverse (map (byte_at mem) (addresses (p_payload st) n))
       ++ drop (i + n) res).
Proof.
  induction n as [|n IH]; intros i lenz st res Hlen Hres.
  - simpl. rewrite Nat.add_0_r, take_drop. destruct st; reflexivity.
  - simpl copy_reversed. unfold load_u8.
    replace (Z.of_nat i + 1) with (Z.of_nat (S i)) by lia.
    rewrite IH by (rewrite ?length_insert; lia).
    cbn [p_payload elem_count reads].
    replace (lenz - Z.of_nat i - 1) with (Z.of_nat n) by lia.
    rewrite addresses_snoc, map_app, reverse_app. cbn [map reverse].
    rewrite Nat2Z.id.
    rewrite (take_S_r _ _ (Z.of_N (Byte.to_N (mem (p_payload st + Z.of_nat n)))))
      by (apply list_lookup_insert_eq; lia).
    rewrite take_insert_ge by lia.
    rewrite drop_insert_lt by lia.
    rewrite <- !app_assoc. simpl.
    replace (i + S n)%nat with (S (i + n)) by lia.
    reflexivity.
Qed.

Lemma memcpy_spec mem n : forall (j d : nat) st res,
  (d + j + n <= length res)%nat ->
  memcpy mem n (Z.of_nat j) (Z.of_nat d) st res =
    (mkState (p_payload st) (elem_count st)
       (reverse (addresses (p_payload st + Z.of_nat j) n) ++ reads st),
     take (d + j) res
       ++ map (byte_at mem) (addresses (p_payload st + Z.of_nat j) n)
       ++ drop (d + j + n) res).
Proof.
  induction n as [|n IH]; intros j d st res Hres.
  - simpl. rewrite Nat.add_0_r, take_drop. destruct st; reflexivity.
  - simpl memcpy. unfold load_u8.
    replace (Z.of_nat j + 1) with (Z.of_nat (S j)) by lia.
    rewrite IH by (rewrite ?length_insert; lia).
    cbn [p_payload elem_count reads addresses map].
    replace (Z.to_nat (Z.of_nat d + Z.of_nat j)) with (d + j)%nat by lia.
    replace (p_payload st + Z.of_nat (S j)) with (p_payload st + Z.of_nat j + 1)
      by lia.
    rewrite reverse_cons, <- app_assoc. simpl.
    replace (d + S j)%nat with (S (d + j)) by lia.
    rewrite (take_S_r _ _ (Z.of_N (Byte.to_N (mem (p_payload st + Z.of_nat j)))))
      by (apply list_lookup_insert_eq; lia).
    rewrite take_insert_ge by lia.
    rewrite drop_insert_lt by lia.
    rewrite <- !app_assoc. simpl.
    replace (d + j + S n)%nat with (S (d + j + n)) by lia.
    reflexivity.
Qed.

(** ** [value_extract] by cases *)

Section Extract.

Variable be : bool.
Variable mem : Z -> byte.

(** The two early exits: budget exhausted, or no header byte before the
    end pointer.  The result buffer is untouched. *)
Lemma value_extract_early st pend res :
  elem_count st = 0 \/ p_payload st + 1 > pend ->
  value_extract be mem st pend res = (false, header_loaded st, res).
Proof.
  intros H. unfold value_extract, deref, load_u8, FAIL_AND_DECR, FAIL,
    cbor_decode_trace, advance.
  cbn [p_payload elem_count reads]. unfold header_loaded.
  destruct (Z.eqb_spec (elem_count st) 0) as [E|E].
  - do 2 f_equal. f_equal. lia.
  - destruct (Z.gtb_spec (p_payload st + 1) pend) as [G|G]; [|lia].
    do 2 f_equal. f_equal. lia.
Qed.

(** The two late exits: extension wider than the result buffer, or
    extension past the end pointer.  The result buffer has been cleared
    and holds the additional value. *)
Lemma value_extract_late st pend res :
  let a := ADDITIONAL (header mem st) in
  elem_count st <> 0 -> p_payload st + 1 <= pend ->
  extension_len a > Z.of_nat (length res)
    \/ p_payload st + 1 + extension_len a > pend ->
  value_extract be mem st pend res =
    (false, header_loaded st, header_only be (length res) a).
Proof.
  intros a E G H. unfold value_extract, deref, load_u8, FAIL_AND_DECR, FAIL,
    cbor_decode_trace, advance.
  cbn [p_payload elem_count reads]. unfold header_loaded.
  fold (byte_at mem (p_payload st)). fold (header mem st). fold a.
  destruct (Z.eqb_spec (elem_count st) 0); [lia|].
  destruct (Z.gtb_spec (p_payload st + 1) pend); [lia|].
  fold (header_only be (length res) a).
  unfold extension_len in H.
  destruct (a >? VALUE_IN_HEADER); [|lia].
  destruct (Z.gtb_spec (additional_len a) (Z.of_nat (length res))) as [W|W].
  - do 2 f_equal. f_equal. lia.
  - destruct (Z.gtb_spec (p_payload st + 1 + additional_len a) pend); [|lia].
    do 2 f_equal. f_equal. lia.
Qed.

Lemma length_extension st n : length (extension mem st n) = Z.to_nat n.
Proof. unfold extension. rewrite length_map. apply length_addresses. Qed.

(** Success: header and extension consumed, budget decremented, value in
    the low-order end of the result buffer. *)
Lemma value_extract_ok st pend res :
  let a := ADDITIONAL (header mem st) in
  elem_count st <> 0 -> p_payload st + 1 + extension_len a <= pend ->
  extension_len a <= Z.of_nat (length res) ->
  value_extract be mem st pend res =
    (true, extracted be st (extension_len a),
     if extension_len a =? 0 then header_only be (length res) a
     else low_order be (length res) (extension mem st (extension_len a))).
Proof.
  intros a E G W.
  pose proof (extension_len_range a) as Hn.
  unfold value_extract, deref, load_u8, FAIL_AND_DECR, FAIL,
    cbor_decode_trace, advance.
  cbn [p_payload elem_count reads].
  fold (byte_at mem (p_payload st)). fold (header mem st). fold a.
  destruct (Z.eqb_spec (elem_count st) 0); [lia|].
  destruct (Z.gtb_spec (p_payload st + 1) pend); [lia|].
  fold (header_only be (length res) a).
  assert (Hcase :
    (a >? VALUE_IN_HEADER) = true /\ extension_len a = additional_len a
    \/ (a >? VALUE_IN_HEADER) = false /\ extension_len a = 0)
    by (unfold extension_len; destruct (a >? VALUE_IN_HEADER); auto).
  destruct Hcase as [[Ha Hx]|[Ha Hx]]; rewrite Ha; rewrite Hx in *.
  - destruct (Z.gtb_spec (additional_len a) (Z.of_nat (length res))); [lia|].
    destruct (Z.gtb_spec (p_payload st + 1 + additional_len a) pend); [lia|].
    set (L := additional_len a) in *.
    set (st1 := mkState (p_payload st + 1) (elem_count st)
                  (p_payload st :: reads st)).
    destruct be.
    + pose proof (memcpy_spec mem (Z.to_nat L) 0 (length res - Z.to_nat L) st1
        (header_only true (length res) a)) as M.
      rewrite length_header_only in M. specialize (M ltac:(lia)).
      change (Z.of_nat 0) with 0 in M.
      replace (Z.of_nat (length res - Z.to_nat L))
        with (Z.of_nat (length res) - L) in M by lia.
      rewrite M. clear M.
      cbn [p_payload elem_count reads st1].
      unfold decr_elem_count, extracted. cbn [p_payload elem_count reads].
      rewrite Nat.add_0_r, Z.add_0_r. f_equal.
      destruct (Z.eqb_spec L 0) as [Z0|Z0].
      * rewrite Z0. simpl. rewrite Nat.sub_0_r, Nat.add_0_r.
        apply take_drop.
      * unfold low_order, header_only, extension.
        rewrite length_map, length_addresses.
        rewrite take_insert_ge by lia. rewrite take_replicate.
        rewrite drop_ge by (rewrite length_insert, length_replicate; lia).
        rewrite app_nil_r. do 2 f_equal. lia.
    + pose proof (copy_reversed_spec mem (Z.to_nat L) 0 L st1
        (header_only false (length res) a)) as M.
      rewrite length_header_only in M.
      specialize (M ltac:(lia) ltac:(lia)).
      change (Z.of_nat 0) with 0 in M.
      rewrite M. clear M.
      cbn [p_payload elem_count reads st1].
      unfold decr_elem_count, extracted. cbn [p_payload elem_count reads].
      f_equal.
      destruct (Z.eqb_spec L 0) as [Z0|Z0].
      * rewrite Z0. reflexivity.
      * unfold low_order, header_only, extension.
        rewrite length_map, length_addresses. simpl take. simpl app.
        rewrite drop_insert_lt by lia. rewrite drop_replicate.
        reflexivity.
  - destruct (Z.eqb_spec 0 0); [|lia].
    unfold decr_elem_count, extracted. cbn [p_payload elem_count reads].
    simpl. do 2 f_equal. f_equal; [lia|]. destruct be; reflexivity.
Qed.

End Extract.

(** The three outcomes of [value_extract], with the conditions that
    select them. *)
Lemma value_extract_cases be mem st pend res :
  let a := ADDITIONAL (header mem st) in
  let n := extension_len a in
  (value_extract be mem st pend res = (false, header_loaded st, res)
   /\ (elem_count st = 0 \/ p_payload st + 1 > pend))
  \/ (value_extract be mem st pend res
        = (false, header_loaded st, header_only be (length res) a)
      /\ elem_count st <> 0 /\ p_payload st + 1 <= pend
      /\ (n > Z.of_nat (length res) \/ p_payload st + 1 + n > pend))
  \/ (value_extract be mem st pend res
        = (true, extracted be st n,
           if n =? 0 then header_only be (length res) a
           else low_order be (length res) (extension mem st n))
      /\ elem_count st <> 0 /\ p_payload st + 1 + n <= pend
      /\ n <= Z.of_nat (length res)).
Proof.
  intros a n. pose proof (extension_len_range a) as Hn. fold n in Hn.
  destruct (Z.eq_dec (elem_count st) 0) as [E|E];
    [left; split; [apply value_extract_early|]; auto|].
  destruct (Z_gt_le_dec (p_payload st + 1) pend) as [G|G];
    [left; split; [apply value_extract_early|]; auto|].
  right.
  destruct (Z_gt_le_dec n (Z.of_nat (length res))) as [W|W];
    [left; split; [apply value_extract_late|]; auto|].
  destruct (Z_gt_le_dec (p_payload st + 1 + n) pend) as [X|X];
    [left; split; [apply value_extract_late|]; auto|].
  right. split; [apply value_extract_ok|]; auto.
Qed.

(** ** Claims about [value_extract] *)





(** ** Range of an extracted value *)

Lemma extension_bytes mem st n :
  Forall (fun b => 0 <= b < 256) (extension mem st n).
Proof.
  unfold extension. apply Forall_forall. intros b Hb.
  apply list_elem_of_In, in_map_iff in Hb. destruct Hb as (a & <- & _).
  apply byte_at_range.
Qed.

Lemma be_value_range l :
  Forall (fun b => 0 <= b < 256) l ->
  0 <= be_value l < 256 ^ Z.of_nat (length l).
Proof.
  intros H. unfold be_value. rewrite <- (length_reverse l).
  apply le_value_range. apply Forall_reverse. exact H.
Qed.

(** A successful extraction into [n] bytes leaves a value below [256^n]. *)
Lemma value_extract_load_range be mem st pend res st' res' :
  (1 <= length res)%nat ->
  value_extract be mem st pend res = (true, st', res') ->
  0 <= load be res' < 256 ^ Z.of_nat (length res).
Proof.
  intros Hlen Hok.
  destruct (value_extract_cases be mem st pend res)
    as [[E C]|[[E C]|[E C]]]; rewrite E in Hok; try discriminate.
  injection Hok as <- <-.
  set (a := ADDITIONAL (header mem st)) in *.
  pose proof (ADDITIONAL_range (header mem st)) as Ha. fold a in Ha.
  pose proof (extension_len_range a) as Hn.
  assert (P : 256 ^ 1 <= 256 ^ Z.of_nat (length res))
    by (apply Z.pow_le_mono_r; lia).
  destruct (Z.eqb_spec (extension_len a) 0) as [Z0|Z0].
  - rewrite load_header_only by lia. lia.
  - rewrite load_low_order.
    pose proof (be_value_range _ (extension_bytes mem st (extension_len a)))
      as B.
    rewrite length_extension in B.
    assert (Q : 256 ^ Z.of_nat (Z.to_nat (extension_len a))
                <= 256 ^ Z.of_nat (length res))
      by (apply Z.pow_le_mono_r; lia).
    lia.
Qed.

(** ** The signed decoder *)

Lemma to_int32_small u : 0 <= u < 2 ^ 31 -> to_int32 u = u.
Proof.
  intros H. unfold to_int32, UINT32_MOD.
  rewrite Z.mod_small by lia.
  destruct (Z.ltb_spec u (2 ^ 31)); lia.
Qed.

Lemma to_int32_negative u :
  0 <= u < 2 ^ 32 -> (to_int32 u <? 0) = Z.testbit u 31.
Proof.
  intros H. unfold to_int32, UINT32_MOD.
  rewrite Z.mod_small by lia.
  destruct (Z.ltb_spec u (2 ^ 31)) as [S|S].
  - destruct (Z.ltb_spec u 0); [lia|]. symmetry.
    apply Z.testbit_false; [lia|]. rewrite Z.div_small by lia. reflexivity.
  - destruct (Z.ltb_spec (u - 2 ^ 32) 0); [|lia]. symmetry.
    apply Z.testbit_true; [lia|].
    replace (u / 2 ^ 31) with 1; [reflexivity|].
    apply Z.div_unique with (r := u - 2 ^ 31); lia.
Qed.

Lemma to_int32_negate u : 0 <= u < 2 ^ 31 -> to_int32 (1 - u) = 1 - u.
Proof.
  intros H. unfold to_int32, UINT32_MOD.
  destruct (Z.eq_dec u 0) as [->|N]; [reflexivity|].
  destruct (Z.eq_dec u 1) as [->|N1]; [reflexivity|].
  replace ((1 - u) mod 2 ^ 32) with (1 - u + 2 ^ 32).
  - destruct (Z.ltb_spec (1 - u + 2 ^ 32) (2 ^ 31)); lia.
  - apply Z.mod_unique with (q := -1); lia.
Qed.

(** C4.  [int32_decode] extracts a raw magnitude into four bytes; it fails
    when that fails and when bit 31 of the raw magnitude is set; otherwise
    the value is [1 - raw] exactly when the major type of the header is
    negative-integer and [raw] itself for every other major type, and the
    call succeeds exactly when this final signed value meets the optional
    bounds.  [intx32_decode] is [int32_decode] behind a gate that admits
    the two integer major types. *)
Theorem int32_decode_steps be mem st pend res0 p_min p_max :
  let major_type := MAJOR_TYPE (header mem st) in
  let '(ok, st1, bytes) :=
    value_extract be mem (header_loaded st) pend (store be 4 res0) in
  let raw := load be bytes in
  length (store be 4 res0) = 4%nat /\
  (ok = true -> 0 <= raw < 2 ^ 32) /\
  int32_decode be mem st pend res0 p_min p_max =
    (if negb ok then (false, st1, to_int32 raw)
     else if Z.testbit raw 31 then (false, st1, to_int32 raw)
     else
       let v := if major_type =? CBOR_MAJOR_TYPE_NINT then 1 - raw else raw in
       (PTR_VALUE_IN_RANGE v p_min p_max, st1, v)) /\
  intx32_decode be mem st pend res0 p_min p_max =
    (if (major_type =? CBOR_MAJOR_TYPE_PINT)
        || (major_type =? CBOR_MAJOR_TYPE_NINT)
     then int32_decode be mem (header_loaded st) pend res0 p_min p_max
     else (false, header_loaded st, res0)).
Proof.
  intros major_type.
  destruct (value_extract be mem (header_loaded st) pend (store be 4 res0))
    as [[ok st1] bytes] eqn:E.
  cbv zeta. split; [apply length_store|].
  assert (R : ok = true -> 0 <= load be bytes < 2 ^ 32).
  { intros ->. apply value_extract_load_range in E.
    - rewrite length_store in E. exact E.
    - rewrite length_store. lia. }
  split; [exact R|]. split.
  - unfold int32_decode, deref, load_u8, FAIL, cbor_decode_trace.
    fold (byte_at mem (p_payload st)). fold (header mem st).
    fold (header_loaded st). fold major_type. rewrite E.
    destruct ok; cbn [negb]; [|reflexivity].
    specialize (R eq_refl).
    rewrite to_int32_negative by exact R.
    destruct (Z.testbit (load be bytes) 31) eqn:T; [reflexivity|].
    assert (S : 0 <= load be bytes < 2 ^ 31).
    { rewrite <- to_int32_negative in T by exact R.
      unfold to_int32, UINT32_MOD in T. rewrite Z.mod_small in T by lia.
      destruct (Z.ltb_spec (load be bytes) (2 ^ 31)); [lia|].
      destruct (Z.ltb_spec (load be bytes - 2 ^ 32) 0); [discriminate|lia]. }
    rewrite (to_int32_small _ S), (to_int32_negate _ S).
    destruct (PTR_VALUE_IN_RANGE _ p_min p_max); reflexivity.
  - unfold intx32_decode, deref, load_u8, FAIL, cbor_decode_trace.
    fold (byte_at mem (p_payload st)). fold (header mem st).
    fold (header_loaded st). fold major_type.
    destruct (major_type =? CBOR_MAJOR_TYPE_PINT);
      destruct (major_type =? CBOR_MAJOR_TYPE_NINT); cbn [negb andb orb];
      try reflexivity;
      destruct (int32_decode be mem (header_loaded st) pend res0 p_min p_max)
        as [[[] s] r]; reflexivity.
Qed.

Lemma int32_decode_steps_witness :
  let mem := buffer [x38; x63] (fun _ => x00) in
  value_extract false mem (header_loaded (start 1)) 2 (store false 4 0)
    = (true, mkState 2 0 [1; 0; 0], [99; 0; 0; 0])
  /\ 0 <= load false [99; 0; 0; 0] < 2 ^ 32
  /\ int32_decode false mem (start 1) 2 0 None None
     = (true, mkState 2 0 [1; 0; 0], 1 - 99).
Proof.
  intros mem.
  pose proof (int32_decode_steps false mem (start 1) 2 0 None None) as T.
  cbv zeta in T.
  assert (E : value_extract false mem (header_loaded (start 1)) 2
                (store false 4 0)
              = (true, mkState 2 0 [1; 0; 0], [99; 0; 0; 0])) by reflexivity.
  rewrite E in T. destruct T as (_ & R & T & _).
  split; [exact E|]. split; [exact (R eq_refl)|]. exact T.
Defined.

(** C3, evaluated on the code.  With no bounds and a budget of one,
    [intx32_decode] on the header byte 0x20 succeeds with the value 1, and
    on the bytes 0x38 0x63 it succeeds with the value -98: the transform
    in the source is [1 - result], where the encoding of negative integers
    calls for [-1 - result] (-1 and -100 on these inputs). *)
Theorem intx32_decode_negative_inputs be rest res0 :
  (let '(ok, st', v) :=
     intx32_decode be (buffer [x20] rest) (start 1) 1 res0 None None in
   ok = true /\ v = 1 /\ v <> -1 /\ p_payload st' = 1 /\ elem_count st' = 0)
  /\
  (let '(ok, st', v) :=
     intx32_decode be (buffer [x38; x63] rest) (start 1) 2 res0 None None in
   ok = true /\ v = -98 /\ v <> -100
   /\ p_payload st' = 2 /\ elem_count st' = 0).
Proof.
  destruct be; vm_compute; repeat split; congruence.
Qed.

(** ** The unsigned decoder and its wrappers *)

Lemma uint32_decode_inv be mem st pend res0 p_min p_max ok st' v :
  uint32_decode be mem st pend res0 p_min p_max = (ok, st', v) ->
  exists ok1 bytes,
    value_extract be mem st pend (store be 4 res0) = (ok1, st', bytes)
    /\ v = load be bytes
    /\ ok = ok1 && PTR_VALUE_IN_RANGE v p_min p_max.
Proof.
  unfold uint32_decode, FAIL, cbor_decode_trace.
  destruct (value_extract be mem st pend (store be 4 res0))
    as [[ok1 st1] bytes].
  intros H. exists ok1, bytes.
  destruct ok1; cbn [negb] in H.
  - destruct (PTR_VALUE_IN_RANGE (load be bytes) p_min p_max) eqn:R;
      cbn [negb] in H; injection H as <- <- <-; rewrite ?R; auto.
  - injection H as <- <- <-. auto.
Qed.

Lemma uint32_decode_ok be mem st pend res0 p_min p_max st' v :
  uint32_decode be mem st pend res0 p_min p_max = (true, st', v) ->
  0 <= v < 2 ^ 32 /\ PTR_VALUE_IN_RANGE v p_min p_max = true
  /\ exists bytes,
       value_extract be mem st pend (store be 4 res0) = (true, st', bytes)
       /\ v = load be bytes.
Proof.
  intros H. apply uint32_decode_inv in H.
  destruct H as (ok1 & bytes & E & -> & B).
  symmetry in B. apply andb_true_iff in B. destruct B as [-> B].
  split; [|split; [exact B|exists bytes; auto]].
  apply value_extract_load_range in E.
  - rewrite length_store in E. exact E.
  - rewrite length_store. lia.
Qed.

(** C10.  A successful [primx_decode] with a destination has decoded a
    value [v] through [uint32_decode]: [v] is a full unsigned 32-bit value
    and it is [v] that was compared with the bounds, while the destination
    receives [v mod 256].  On the bytes 0xf9 0x01 0x02 the decoded value is
    258, the call succeeds, and the destination holds 2. *)
Theorem primx_decode_stores_low_byte :
  (forall be mem val0 st pend r0 p_min p_max st' r',
     primx_decode be mem val0 st pend (Some r0) p_min p_max = (true, st', r') ->
     exists v,
       uint32_decode be mem (header_loaded st) pend val0 p_min p_max
         = (true, st', v)
       /\ 0 <= v < 2 ^ 32
       /\ PTR_VALUE_IN_RANGE v p_min p_max = true
       /\ r' = Some (v mod 256))
  /\
  (forall be rest val0 r0,
     let mem := buffer [xf9; x01; x02] rest in
     snd (uint32_decode be mem (header_loaded (start 1)) 3 val0 None None)
       = 258
     /\ fst (fst (primx_decode be mem val0 (start 1) 3 (Some r0) None None))
        = true
     /\ snd (primx_decode be mem val0 (start 1) 3 (Some r0) None None)
        = Some 2).
Proof.
  split.
  - intros be mem val0 st pend r0 p_min p_max st' r'.
    unfold primx_decode, deref, load_u8, FAIL, cbor_decode_trace.
    fold (header_loaded st).
    destruct (negb _); [discriminate|].
    destruct (uint32_decode be mem (header_loaded st) pend val0 p_min p_max)
      as [[ok st1] v] eqn:E.
    destruct ok; cbn [negb]; [|discriminate].
    intros H. injection H as <- <-.
    destruct (uint32_decode_ok _ _ _ _ _ _ _ _ _ E) as (R & B & _).
    exists v. auto.
  - intros be rest val0 r0 mem. subst mem.
    destruct be; vm_compute; auto.
Qed.

Lemma primx_decode_stores_low_byte_witness :
  let mem := buffer [xf9; x01; x02] (fun _ => x00) in
  primx_decode false mem 0 (start 1) 3 (Some 0) None None
    = (true, mkState 3 0 [1; 2; 0; 0], Some 2)
  /\ exists v,
       uint32_decode false mem (header_loaded (start 1)) 3 0 None None
         = (true, mkState 3 0 [1; 2; 0; 0], v)
       /\ 0 <= v < 2 ^ 32
       /\ PTR_VALUE_IN_RANGE v None None = true
       /\ Some 2 = Some (v mod 256).
Proof.
  intros mem.
  assert (E : primx_decode false mem 0 (start 1) 3 (Some 0) None None
              = (true, mkState 3 0 [1; 2; 0; 0], Some 2)) by reflexivity.
  split; [exact E|].
  exact (proj1 primx_decode_stores_low_byte false mem 0 (start 1) 3 0
           None None _ _ E).
Defined.

(** ** The repetition combinator *)

Section MultiProperties.

Context {R : Type} `{!Inhabited R}.

Variable decoder : decoder_t R.
Variables min_decode max_decode pend : Z.
Variables p_min p_max : option Z.

(** When every remaining attempt succeeds the loop runs to its end. *)
Lemma multi_decode_loop_all n : forall i st results st' results',
  attempts n i decoder st pend results p_min p_max = Some (st', results') ->
  multi_decode_loop n i min_decode max_decode decoder st pend results
    p_min p_max = (true, max_decode, st', results').
Proof.
  induction n as [|n IH]; intros i st results st' results' H; simpl in *.
  - injection H as <- <-. reflexivity.
  - destruct (decoder st pend (results !!! Z.to_nat i) p_min p_max)
      as [[ok st1] r].
    destruct ok; cbn [negb]; [|discriminate].
    apply IH. exact H.
Qed.

(** When [k] attempts succeed and the next one fails within the bound,
    the loop stops there. *)
Lemma multi_decode_loop_stop k : forall n i st results st1 results1 st2 r2,
  (k < n)%nat ->
  attempts k i decoder st pend results p_min p_max = Some (st1, results1) ->
  decoder st1 pend (results1 !!! Z.to_nat (i + Z.of_nat k)) p_min p_max
    = (false, st2, r2) ->
  multi_decode_loop n i min_decode max_decode decoder st pend results
    p_min p_max =
    (negb (i + Z.of_nat k <? min_decode), i + Z.of_nat k,
     mkState (p_payload st1) (elem_count st1) (reads st2),
     <[Z.to_nat (i + Z.of_nat k) := r2]> results1).
Proof.
  induction k as [|k IH]; intros n i st results st1 results1 st2 r2 Hk A F.
  - simpl in A. injection A as <- <-.
    destruct n as [|n]; [lia|]. simpl.
    rewrite Z.add_0_r in *. rewrite F. cbn [negb].
    unfold cbor_decode_trace. destruct (i <? min_decode); reflexivity.
  - destruct n as [|n]; [lia|]. simpl in *.
    destruct (decoder st pend (results !!! Z.to_nat i) p_min p_max)
      as [[ok st'] r].
    destruct ok; cbn [negb]; [|discriminate].
    replace (i + Z.of_nat (S k)) with (i + 1 + Z.of_nat k) in * by lia.
    apply IH; [lia|exact A|exact F].
Qed.

End MultiProperties.

(** C8.  [multi_decode] attempts the callback greedily: when the first [k]
    attempts succeed and attempt [k+1] fails, with [k] below [max_decode],
    it stops, puts cursor and budget back to what they were immediately
    before the failing attempt, reports [k], and succeeds exactly when
    [k] is at least [min_decode].  On a buffer holding the unsigned
    integers 1, 100, 1000 and then the byte 0xff, [uintx32_decode] repeated
    with min 2 and max 5 succeeds with count 3, and with min 4 it fails
    (the cursor staying after the third integer in both cases). *)
Theorem multi_decode_greedy :
  (forall (R : Type) `{!Inhabited R} (decoder : decoder_t R)
          min_decode max_decode pend p_min p_max
          st results (k : nat) st1 results1 st2 r2,
     Z.of_nat k < max_decode ->
     attempts k 0 decoder st pend results p_min p_max
       = Some (st1, results1) ->
     decoder st1 pend (results1 !!! k) p_min p_max = (false, st2, r2) ->
     multi_decode min_decode max_decode decoder st pend results p_min p_max
       = (negb (Z.of_nat k <? min_decode), Z.of_nat k,
          mkState (p_payload st1) (elem_count st1) (reads st2),
          <[k := r2]> results1))
  /\
  (forall be rest,
     let decoder := uintx32_decode be (buffer three_uints rest) in
     (let '(ok, num_decode, st', results) :=
        multi_decode 2 5 decoder (start 10) 7 [0; 0; 0; 0; 0] None None in
      ok = true /\ num_decode = 3 /\ p_payload st' = 6 /\ elem_count st' = 7
      /\ results = [1; 100; 1000; 0; 0])
     /\
     (let '(ok, num_decode, st', results) :=
        multi_decode 4 5 decoder (start 10) 7 [0; 0; 0; 0; 0] None None in
      ok = false /\ num_decode = 3 /\ p_payload st' = 6
      /\ elem_count st' = 7)).
Proof.
  split.
  - intros R HR decoder min_decode max_decode pend p_min p_max st results k
      st1 results1 st2 r2 Hk A F.
    unfold multi_decode.
    pose proof (multi_decode_loop_stop decoder min_decode max_decode pend
                  p_min p_max k (Z.to_nat max_decode) 0 st results st1
                  results1 st2 r2) as L.
    rewrite Z.add_0_l, Nat2Z.id in L. apply L; [lia|exact A|exact F].
  - intros be rest decoder. subst decoder.
    destruct be; vm_compute; auto 10.
Qed.

Lemma multi_decode_greedy_witness :
  let decoder := uintx32_decode false (buffer three_uints (fun _ => x00)) in
  Z.of_nat 3 < 5
  /\ multi_decode 2 5 decoder (start 10) 7 [0; 0; 0; 0; 0] None None
     = (negb (Z.of_nat 3 <? 2), Z.of_nat 3,
        mkState 6 7 [6; 4; 5; 3; 3; 2; 1; 1; 0; 0],
        <[3%nat := 0]> [1; 100; 1000; 0; 0]).
Proof.
  intros decoder. split; [reflexivity|].
  apply (proj1 multi_decode_greedy Z _ decoder 2 5 7 None None (start 10)
           [0; 0; 0; 0; 0] 3%nat (mkState 6 7 [4; 5; 3; 3; 2; 1; 1; 0; 0])
           [1; 100; 1000; 0; 0]
           (mkState 6 7 [6; 4; 5; 3; 3; 2; 1; 1; 0; 0]) 0);
    reflexivity.
Defined.

(** C9.  [multi_decode] compares the count with [min_decode] only where an
    attempt fails.  When all [max_decode] attempts succeed it returns
    success with count [max_decode], whatever [min_decode] is; with
    [max_decode = 0] no attempt is made and the call succeeds with count 0
    and the state untouched.  With min 3 and max 2 on the buffer of three
    unsigned integers the call succeeds with count 2. *)
Theorem multi_decode_min_unchecked_at_max :
  (forall (R : Type) `{!Inhabited R} (decoder : decoder_t R)
          min_decode max_decode pend p_min p_max st results st' results',
     attempts (Z.to_nat max_decode) 0 decoder st pend results p_min p_max
       = Some (st', results') ->
     multi_decode min_decode max_decode decoder st pend results p_min p_max
       = (true, max_decode, st', results'))
  /\
  (forall (R : Type) `{!Inhabited R} (decoder : decoder_t R)
          min_decode pend p_min p_max st results,
     multi_decode min_decode 0 decoder st pend results p_min p_max
       = (true, 0, st, results))
  /\
  (forall be rest,
     let decoder := uintx32_decode be (buffer three_uints rest) in
     let '(ok, num_decode, st', results) :=
       multi_decode 3 2 decoder (start 10) 7 [0; 0] None None in
     ok = true /\ num_decode = 2 /\ num_decode < 3
     /\ p_payload st' = 3 /\ elem_count st' = 8 /\ results = [1; 100]).
Proof.
  split; [|split].
  - intros R HR decoder min_decode max_decode pend p_min p_max st results
      st' results' A.
    unfold multi_decode. apply multi_decode_loop_all. exact A.
  - reflexivity.
  - intros be rest decoder. subst decoder.
    destruct be; vm_compute; repeat split; congruence.
Qed.

Lemma multi_decode_min_unchecked_at_max_witness :
  let decoder := uintx32_decode false (buffer three_uints (fun _ => x00)) in
  multi_decode 3 2 decoder (start 10) 7 [0; 0] None None
    = (true, 2, mkState 3 8 [2; 1; 1; 0; 0], [1; 100]).
Proof.
  intros decoder.
  apply (proj1 multi_decode_min_unchecked_at_max Z _ decoder 3 2 7 None None
           (start 10) [0; 0]).
  reflexivity.
Defined.

(** ** Every decoder at once *)

Lemma logged_refl p hi l : logged p hi l l.
Proof. exists []. split; [reflexivity|constructor]. Qed.

Lemma logged_header p hi old new :
  logged p hi old new -> logged p hi old (p :: new).
Proof.
  intros (l & -> & F). exists (p :: l). split; [reflexivity|].
  constructor; auto.
Qed.

Lemma logged_extension (be : bool) p n hi old new :
  p + 1 + Z.of_nat n <= hi ->
  logged p hi old new ->
  logged p hi old
    ((if be then reverse (addresses (p + 1) n) else addresses (p + 1) n)
     ++ new).
Proof.
  intros Hhi (l & -> & F).
  exists ((if be then reverse (addresses (p + 1) n) else addresses (p + 1) n)
          ++ l).
  split; [apply app_assoc|].
  apply Forall_app. split; [|exact F].
  assert (A : Forall (fun a => a = p \/ p < a < hi) (addresses (p + 1) n)).
  { eapply Forall_impl; [apply addresses_range|].
    simpl. intros a Ha. right. lia. }
  destruct be; [apply Forall_reverse|]; exact A.
Qed.


Lemma extractable_spec mem st pend w :
  let n := extension_len (ADDITIONAL (header mem st)) in
  extractable mem st pend w = true <->
  elem_count st <> 0 /\ p_payload st + 1 + n <= pend /\ n <= Z.of_nat w.
Proof.
  unfold extractable. cbv zeta.
  rewrite !andb_true_iff, negb_true_iff, Z.eqb_neq, !Z.leb_le. tauto.
Qed.

(** [value_extract] in one equation: it succeeds exactly when the call is
    [extractable], and then leaves the announced value in the buffer. *)
Lemma value_extract_state be mem st pend res :
  let ok := extractable mem st pend (length res) in
  exists res',
    value_extract be mem st pend res =
      (ok,
       if ok
       then extracted be st (extension_len (ADDITIONAL (header mem st)))
       else header_loaded st,
       res')
    /\ (ok = true -> (1 <= length res)%nat ->
        load be res' = header_value mem st).
Proof.
  intros ok. subst ok.
  pose proof (extractable_spec mem st pend (length res)) as X. cbv zeta in X.
  pose proof (extension_len_range (ADDITIONAL (header mem st))) as Hn.
  destruct (value_extract_cases be mem st pend res)
    as [[E C]|[[E C]|[E C]]]; rewrite E; clear E.
  - destruct (extractable mem st pend (length res)).
    + exfalso. destruct (proj1 X eq_refl). lia.
    + eexists. split; [reflexivity|discriminate].
  - destruct (extractable mem st pend (length res)).
    + exfalso. destruct (proj1 X eq_refl). lia.
    + eexists. split; [reflexivity|discriminate].
  - rewrite (proj2 X C). eexists. split; [reflexivity|].
    intros _ Hlen. unfold header_value.
    destruct (extension_len (ADDITIONAL (header mem st)) =? 0).
    + apply load_header_only. exact Hlen.
    + apply load_low_order.
Qed.

(** What any call of any decoder does to cursor, budget and log.  The
    header byte at the cursor is always loaded.  A call that is not
    accepted (major type) or not [extractable] fails with cursor and
    budget as before, having loaded nothing else.  Any other call has
    consumed the header and its extension, which lie before the end
    pointer, and has decremented the budget, whether it then succeeds or
    fails; a successful call that moves over a payload adds
    [payload_skip] to the cursor, as a 32-bit pointer. *)
Lemma run_call_summary be mem c st pend :
  let p := p_payload st in
  let n := extension_len (ADDITIONAL (header mem st)) in
  let '(ok, st') := run_call be mem c st pend in
  In p (reads st') /\
  if accepts c (MAJOR_TYPE (header mem st))
     && extractable mem st pend (result_width c)
  then
    logged p (p + 1 + n) (reads st) (reads st')
    /\ p + 1 + n <= pend
    /\ elem_count st' = (elem_count st - 1) mod UINT32_MOD
    /\ p_payload st'
       = (if ok && moves_over_payload mem c st
          then (p + 1 + n + payload_skip mem c st) mod UINT32_MOD
          else p + 1 + n)
  else
    logged p (p + 1) (reads st) (reads st')
    /\ ok = false /\ p_payload st' = p /\ elem_count st' = elem_count st.
Proof.
  intros p n.
  pose proof (extension_len_range (ADDITIONAL (header mem st))) as Hn.
  fold n in Hn.
  pose proof (extractable_spec mem st pend (result_width c)) as X.
  cbv zeta in X. fold n in X.
  assert (L0 : logged p (p + 1) (reads st) (p :: reads st))
    by (apply logged_header, logged_refl).
  assert (L1 : forall hi, logged p hi (reads st) (p :: p :: reads st))
    by (intros; do 2 apply logged_header; apply logged_refl).
  assert (L2 : forall hi, logged p hi (reads st) (p :: p :: p :: reads st))
    by (intros; do 3 apply logged_header; apply logged_refl).
  destruct c;
    cbn [run_call accepts result_width payload_skip moves_over_payload] in *;
    cbv zeta.
  all: unfold intx32_decode, int32_decode, uintx32_decode, strx_decode,
         strx_start_decode, size_decode, list_start_decode, boolx_decode,
         primx_decode, double_decode, any_decode, uint32_decode,
         deref, load_u8, FAIL, cbor_decode_trace.
  all: fold (byte_at mem (p_payload st)); fold (header mem st);
       fold (header_loaded st).
  all: cbn [header_loaded p_payload elem_count reads].
  all: fold (byte_at mem (p_payload st)); fold (header mem st);
       fold (header_loaded st); fold (header_loaded (header_loaded st)).
  all: match goal with
       | |- context [value_extract ?b ?m ?s ?e ?r] =>
           let bytes := fresh "bytes" in
           let E := fresh "E" in
           let V := fresh "V" in
           destruct (value_extract_state b m s e r) as (bytes & E & V);
           rewrite ?length_store in E, V;
           change (extractable m s e) with (extractable mem st pend) in E, V;
           change (header m s) with (header mem st) in E;
           change (header_value m s) with (header_value mem st) in V;
           rewrite E; clear E
       end.
  all: destruct (extractable mem st pend _) eqn:Xe;
       [pose proof (proj1 X eq_refl) as (X1 & X2 & X3)|]; clear X.
  all: repeat match goal with
       | |- context [MAJOR_TYPE ?h =? ?k] => destruct (MAJOR_TYPE h =? k)
       end.
  all: cbn [negb andb orb fst snd].
  all: repeat match goal with
       | |- context [if negb ?b then _ else _] =>
           lazymatch b with
           | true => change (negb true) with false; cbv iota
           | false => change (negb false) with true; cbv iota
           | _ => destruct b
           end
       | |- context [if ?x <? ?y then _ else _] => destruct (x <? y)
       end.
  all: cbn [fst snd extracted header_loaded advance advance_payload
            p_payload elem_count reads andb orb].
  all: fold n.
  all: try (rewrite V by (try reflexivity; simpl; lia)).
  all: (split; [rewrite ?in_app_iff; simpl; auto|]).
  all: repeat split; try reflexivity; try lia; auto.
  all: repeat first [ apply logged_refl | apply logged_header
                    | apply logged_extension; [lia|] ].
Qed.



Lemma payload_skip_none mem c st :
  skips_payload c = false -> payload_skip mem c st = 0.
Proof. destruct c; cbn; congruence. Qed.




(** C1, evaluated on the code.  Called with the cursor at the end pointer
    (an empty buffer, or a buffer that has been consumed), every decoder
    loads the byte at the end pointer, whatever the budget and the
    arguments, and only then fails: the header byte is read before the
    comparison with the end pointer.  So it is with the attempt that
    [multi_decode] makes after the last item of a buffer: on the three
    bytes 0x01 0x18 0x64 (the integers 1 and 100, end pointer 3) the third
    attempt loads address 3. *)
Theorem header_loaded_at_end :
  (forall be mem c budget log pend,
     let '(ok, st') := run_call be mem c (mkState pend budget log) pend in
     In pend (reads st') /\ ok = false
     /\ p_payload st' = pend /\ elem_count st' = budget)
  /\
  (forall be rest,
     let decoder := uintx32_decode be (buffer [x01; x18; x64] rest) in
     let '(ok, num_decode, st', _) :=
       multi_decode 0 5 decoder (start 10) 3 [0; 0; 0; 0; 0] None None in
     ok = true /\ num_decode = 2 /\ p_payload st' = 3 /\ In 3 (reads st')).
Proof.
  split.
  - intros be mem c budget log pend.
    pose proof (run_call_summary be mem c (mkState pend budget log) pend)
      as S.
    cbv zeta in S.
    destruct (run_call be mem c (mkState pend budget log) pend) as [ok st'].
    cbn [p_payload elem_count reads] in S.
    destruct S as [I S]. split; [exact I|].
    destruct (extractable mem (mkState pend budget log) pend (result_width c))
      eqn:X.
    + exfalso. apply extractable_spec in X. cbn [p_payload] in X.
      pose proof (extension_len_range
        (ADDITIONAL (header mem (mkState pend budget log)))).
      lia.
    + rewrite andb_false_r in S. tauto.
  - intros be rest decoder.
    set (mem := buffer [x01; x18; x64] rest) in *.
    set (st2 := mkState 3 8 [2; 1; 1; 0; 0]).
    assert (A : attempts 2 0 decoder (start 10) 3 [0; 0; 0; 0; 0] None None
                = Some (st2, [1; 100; 0; 0; 0]))
      by (subst decoder mem st2; destruct be; vm_compute; reflexivity).
    pose proof (run_call_summary be mem (call_uintx32_decode 0 None None)
                  st2 3) as S.
    cbv zeta in S. cbn [run_call] in S.
    destruct (uintx32_decode be mem st2 3 0 None None) as [[ok3 st3] r3] eqn:F.
    cbn [fst] in S. destruct S as [I S].
    assert (X : extractable mem st2 3 (result_width
                  (call_uintx32_decode 0 None None)) = false).
    { destruct (extractable mem st2 3 _) eqn:X; [|reflexivity].
      apply extractable_spec in X. cbn [p_payload st2] in X.
      pose proof (extension_len_range (ADDITIONAL (header mem st2))). lia. }
    rewrite X, andb_false_r in S. destruct S as (_ & -> & _).
    pose proof (multi_decode_loop_stop decoder 0 5 3 None None 2 5 0
                  (start 10) [0; 0; 0; 0; 0] st2 [1; 100; 0; 0; 0] st3 r3
                  ltac:(lia) A F) as M.
    unfold multi_decode. change (Z.to_nat 5) with 5%nat. rewrite M.
    cbn [p_payload reads st2]. auto.
Qed.







(** * Further properties of the decoders *)

(** ** Header fields *)

(** A header byte is its major type in the three high bits and its
    additional value in the five low bits. *)
Theorem header_byte_fields h :
  0 <= h < 256 ->
  h = 32 * MAJOR_TYPE h + ADDITIONAL h
  /\ 0 <= MAJOR_TYPE h <= 7 /\ 0 <= ADDITIONAL h <= 31.
Proof.
  intros H. rewrite MAJOR_TYPE_div, ADDITIONAL_mod.
  assert (D : 0 <= h / 32 < 8)
    by (split; [apply Z.div_pos|apply Z.div_lt_upper_bound]; lia).
  rewrite (Z.mod_small (h / 32)) by lia.
  pose proof (Z.div_mod h 32 ltac:(lia)).
  pose proof (Z.mod_pos_bound h 32 ltac:(lia)). lia.
Qed.

Lemma header_byte_fields_witness :
  0 <= 0x38 < 256 /\ 0x38 = 32 * MAJOR_TYPE 0x38 + ADDITIONAL 0x38.
Proof.
  split; [lia|]. apply (header_byte_fields 0x38). lia.
Defined.

(** ** [value_extract] and the prior content of the result buffer *)

(** The outcome of [value_extract] (flag, cursor, budget, loads) depends
    on the result buffer through its length only, and on success so does
    the content it leaves: whatever the buffer held before is gone. *)
Theorem value_extract_overwrites be mem st pend res1 res2 :
  length res1 = length res2 ->
  fst (value_extract be mem st pend res1)
    = fst (value_extract be mem st pend res2)
  /\ (fst (fst (value_extract be mem st pend res1)) = true ->
      snd (value_extract be mem st pend res1)
        = snd (value_extract be mem st pend res2)).
Proof.
  intros L.
  pose proof (extension_len_range (ADDITIONAL (header mem st))) as Hn.
  destruct (value_extract_cases be mem st pend res1)
    as [[E1 C1]|[[E1 C1]|[E1 C1]]];
  destruct (value_extract_cases be mem st pend res2)
    as [[E2 C2]|[[E2 C2]|[E2 C2]]];
  rewrite E1, E2; cbn [fst snd]; rewrite <- ?L in *;
    first [ exfalso; lia
          | split; [reflexivity|discriminate]
          | split; reflexivity ].
Qed.

Lemma value_extract_overwrites_witness :
  let mem := buffer [x19; x03; xe8] (fun _ => x00) in
  length [7; 7; 7; 7] = length [1; 2; 3; 4]
  /\ snd (value_extract false mem (start 1) 3 [7; 7; 7; 7])
     = snd (value_extract false mem (start 1) 3 [1; 2; 3; 4]).
Proof.
  intros mem. split; [reflexivity|].
  apply (value_extract_overwrites false mem (start 1) 3 [7; 7; 7; 7]
           [1; 2; 3; 4] eq_refl).
  reflexivity.
Defined.

(** ** Every decoder: loads, budget, type and width *)



(** Every successful call of every decoder has found the budget nonzero
    and leaves it smaller by exactly one, so with a budget of zero every
    call fails. *)
Theorem success_costs_one_budget be mem c st pend st' :
  0 <= elem_count st < UINT32_MOD ->
  run_call be mem c st pend = (true, st') ->
  elem_count st <> 0 /\ elem_count st' = elem_count st - 1.
Proof.
  intros Hb H.
  pose proof (run_call_summary be mem c st pend) as S. cbv zeta in S.
  rewrite H in S. destruct S as [_ S].
  destruct (extractable mem st pend (result_width c)) eqn:X.
  - apply extractable_spec in X. destruct X as (X & _).
    destruct (accepts _ _); cbn [andb] in S.
    + destruct S as (_ & _ & B & _). split; [exact X|].
      rewrite B. apply Z.mod_small. unfold UINT32_MOD in *. lia.
    + destruct S as (_ & S & _). discriminate.
  - rewrite andb_false_r in S. destruct S as (_ & S & _). discriminate.
Qed.

Lemma success_costs_one_budget_witness :
  let mem := buffer [x63; x61; x62; x63] (fun _ => x00) in
  let c := call_strx_decode (mkString 0 0) None None in
  0 <= elem_count (start 5) < UINT32_MOD
  /\ run_call false mem c (start 5) 4 = (true, mkState 4 4 [0; 0])
  /\ elem_count (mkState 4 4 [0; 0]) = elem_count (start 5) - 1.
Proof.
  intros mem c.
  assert (B : 0 <= elem_count (start 5) < UINT32_MOD)
    by (vm_compute; split; congruence).
  assert (E : run_call false mem c (start 5) 4 = (true, mkState 4 4 [0; 0]))
    by reflexivity.
  split; [exact B|]. split; [exact E|].
  exact (proj2 (success_costs_one_budget false mem c (start 5) 4 _ B E)).
Defined.

(** A call succeeds only on a header whose major type the decoder accepts
    and whose extension is no wider than the decoder's result: the
    decoders of 32-bit results reject a header with additional value 27
    (an extension of eight bytes). *)
Theorem success_requires_type_and_width be mem c st pend st' :
  run_call be mem c st pend = (true, st') ->
  accepts c (MAJOR_TYPE (header mem st)) = true
  /\ extension_len (ADDITIONAL (header mem st)) <= Z.of_nat (result_width c)
  /\ (result_width c = 4%nat -> ADDITIONAL (header mem st) <> 27).
Proof.
  intros H.
  pose proof (run_call_summary be mem c st pend) as S. cbv zeta in S.
  rewrite H in S. destruct S as [_ S].
  destruct (accepts c (MAJOR_TYPE (header mem st))); cbn [andb] in S.
  - destruct (extractable mem st pend (result_width c)) eqn:X.
    + apply extractable_spec in X. destruct X as (_ & _ & X).
      split; [reflexivity|]. split; [exact X|].
      intros W A. rewrite W, A in X. vm_compute in X. apply X. reflexivity.
    + destruct S as (_ & S & _). discriminate.
  - destruct S as (_ & S & _). discriminate.
Qed.

Lemma success_requires_type_and_width_witness :
  let mem := buffer [x1a; x00; x01; x00; x00] (fun _ => x00) in
  let c := call_uintx32_decode 0 None None in
  run_call false mem c (start 1) 5 = (true, mkState 5 0 [1; 2; 3; 4; 0; 0])
  /\ accepts c (MAJOR_TYPE (header mem (start 1))) = true
  /\ ADDITIONAL (header mem (start 1)) <> 27.
Proof.
  intros mem c.
  assert (E : run_call false mem c (start 1) 5
              = (true, mkState 5 0 [1; 2; 3; 4; 0; 0])) by reflexivity.
  split; [exact E|].
  destruct (success_requires_type_and_width false mem c (start 1) 5 _ E)
    as (A & _ & W).
  split; [exact A|]. apply W. reflexivity.
Defined.


(** ** The typed decoders by their outcome *)

(** [uint32_decode] succeeds exactly when the extraction into four bytes
    succeeds and the value the header announces meets the bounds; that
    value is what it returns. *)
Lemma uint32_decode_state be mem st pend res0 lo hi :
  let v := header_value mem st in
  let x := extractable mem st pend 4 in
  exists r,
    uint32_decode be mem st pend res0 lo hi
      = (x && PTR_VALUE_IN_RANGE v lo hi,
         if x
         then extracted be st (extension_len (ADDITIONAL (header mem st)))
         else header_loaded st,
         r)
    /\ (x = true -> r = v /\ 0 <= v < 2 ^ 32).
Proof.
  intros v x. subst v x.
  unfold uint32_decode, FAIL, cbor_decode_trace.
  destruct (value_extract_state be mem st pend (store be 4 res0))
    as (bytes & E & V).
  rewrite length_store in E, V.
  pose proof (value_extract_load_range be mem st pend (store be 4 res0)) as R.
  rewrite length_store in R. rewrite E in R |- *.
  destruct (extractable mem st pend 4); cbn [negb andb].
  - specialize (V eq_refl ltac:(lia)).
    specialize (R _ _ ltac:(lia) eq_refl).
    rewrite V in *.
    destruct (PTR_VALUE_IN_RANGE (header_value mem st) lo hi); cbn [negb];
      eexists; (split; [reflexivity|]); intros _; split; auto.
  - eexists. split; [reflexivity|discriminate].
Qed.



Lemma int32_decode_state be mem st pend res0 lo hi :
  let raw := header_value mem st in
  let v :=
    if MAJOR_TYPE (header mem st) =? CBOR_MAJOR_TYPE_NINT
    then 1 - raw else raw in
  let x := extractable mem st pend 4 in
  exists r,
    int32_decode be mem st pend res0 lo hi
      = (x && (raw <? 2 ^ 31) && PTR_VALUE_IN_RANGE v lo hi,
         if x
         then extracted be (header_loaded st)
                (extension_len (ADDITIONAL (header mem st)))
         else header_loaded (header_loaded st),
         r)
    /\ (x && (raw <? 2 ^ 31) = true -> r = v /\ 0 <= raw < 2 ^ 31).
Proof.
  intros raw v x. subst raw v x.
  unfold int32_decode, deref, load_u8, FAIL, cbor_decode_trace.
  fold (byte_at mem (p_payload st)). fold (header mem st).
  fold (header_loaded st).
  destruct (value_extract_state be mem (header_loaded st) pend
              (store be 4 res0)) as (bytes & E & V).
  rewrite length_store in E, V.
  pose proof (value_extract_load_range be mem (header_loaded st) pend
                (store be 4 res0)) as R.
  rewrite length_store in R. rewrite E in R |- *.
  change (header_value mem (header_loaded st)) with (header_value mem st) in V.
  change (extractable mem (header_loaded st) pend 4)
    with (extractable mem st pend 4) in *.
  change (header mem (header_loaded st)) with (header mem st).
  destruct (extractable mem st pend 4); cbn [negb andb].
  - specialize (V eq_refl ltac:(lia)).
    specialize (R _ _ ltac:(lia) eq_refl).
    rewrite V in *. set (raw := header_value mem st) in *.
    rewrite to_int32_negative by exact R.
    assert (T : Z.testbit raw 31 = negb (raw <? 2 ^ 31)).
    { rewrite <- to_int32_negative by exact R.
      unfold to_int32, UINT32_MOD. rewrite Z.mod_small by lia.
      destruct (Z.ltb_spec raw (2 ^ 31)); cbn [negb].
      - destruct (Z.ltb_spec raw 0); [lia|reflexivity].
      - destruct (Z.ltb_spec (raw - 2 ^ 32) 0); [reflexivity|lia]. }
    rewrite T.
    destruct (Z.ltb_spec raw (2 ^ 31)) as [S|S]; cbn [negb andb].
    + rewrite (to_int32_small raw) by lia.
      rewrite (to_int32_negate raw) by lia.
      destruct (PTR_VALUE_IN_RANGE _ lo hi); cbn [negb];
        eexists; (split; [reflexivity|]); intros _; split; auto; lia.
    + eexists. split; [reflexivity|discriminate].
  - eexists. split; [reflexivity|discriminate].
Qed.











(** The payload advance wraps and is not checked.  On the five bytes
    7a ff ff ff ff (a text string that announces 2^32 - 1 bytes, none of
    them present) [strx_decode] succeeds with a view of that length and
    leaves the cursor at 4, before the byte the view points to.  On the
    nine bytes 5b 00 00 00 01 00 00 00 00 (a byte string that announces
    2^32 bytes) [any_decode] succeeds and leaves the cursor at 9, the end
    pointer, as if the string were empty. *)
Theorem payload_advance_wraps be :
  (let mem := buffer [x7a; xff; xff; xff; xff] (fun _ => x00) in
   let '(ok, st', s) :=
     strx_decode be mem (start 1) 5 (mkString 0 0) None None in
   ok = true /\ len s = 2 ^ 32 - 1 /\ value s = 5 /\ p_payload st' = 4)
  /\
  (let mem :=
     buffer [x5b; x00; x00; x00; x01; x00; x00; x00; x00] (fun _ => x00) in
   let '(ok, st') := any_decode be mem 0 (start 1) 9 in
   ok = true /\ header_value mem (start 1) = 2 ^ 32 /\ p_payload st' = 9).
Proof. destruct be; vm_compute; repeat split; congruence. Qed.

(** ** [multi_decode] in general *)

Section MultiOutcome.

Context {R : Type} `{!Inhabited R}.

Variable decoder : decoder_t R.
Variables min_decode max_decode pend : Z.
Variables lo hi : option Z.

(** The loop stops after a run of [k] successful attempts, either because
    its [n] iterations are used up or because attempt [k+1] fails. *)
Lemma multi_decode_loop_outcome n : forall i st results,
  exists (k : nat) st_k rs_k ok num st' rs',
    multi_decode_loop n i min_decode max_decode decoder st pend results lo hi
      = (ok, num, st', rs')
    /\ attempts k i decoder st pend results lo hi = Some (st_k, rs_k)
    /\ (k <= n)%nat
    /\ p_payload st' = p_payload st_k /\ elem_count st' = elem_count st_k
    /\ ((k = n /\ ok = true /\ num = max_decode)
        \/ ((k < n)%nat /\ num = i + Z.of_nat k
            /\ ok = negb (i + Z.of_nat k <? min_decode)
            /\ fst (fst (decoder st_k pend
                           (rs_k !!! Z.to_nat (i + Z.of_nat k)) lo hi))
               = false)).
Proof.
  induction n as [|n IH]; intros i st results.
  - exists 0%nat, st, results, true, max_decode, st, results.
    simpl. repeat split; auto.
  - simpl multi_decode_loop.
    destruct (decoder st pend (results !!! Z.to_nat i) lo hi)
      as [[ok1 st1] r1] eqn:D.
    destruct ok1; cbn [negb].
    + destruct (IH (i + 1) st1 (<[Z.to_nat i := r1]> results))
        as (k & st_k & rs_k & ok & num & st' & rs' & E & A & K & P & B & C).
      exists (S k), st_k, rs_k, ok, num, st', rs'.
      split; [exact E|]. split; [simpl; rewrite D; exact A|].
      split; [lia|]. split; [exact P|]. split; [exact B|].
      replace (i + Z.of_nat (S k)) with (i + 1 + Z.of_nat k) by lia.
      destruct C as [(-> & C)|(K' & C)]; [left; auto|right].
      split; [lia|exact C].
    + exists 0%nat, st, results. rewrite Z.add_0_r.
      unfold cbor_decode_trace.
      destruct (i <? min_decode) eqn:M; do 4 eexists;
        (split; [reflexivity|]); (split; [reflexivity|]);
        (split; [lia|]); cbn [p_payload elem_count];
        (split; [reflexivity|]); (split; [reflexivity|]);
        right; rewrite D; repeat split; auto; lia.
Qed.

(** A run of [k] successful attempts of a callback that consumes budget
    needs a budget of at least [k] and leaves it smaller by [k]. *)
Lemma attempts_budget k : forall i st results st_k rs_k,
  consumes_budget decoder ->
  0 <= elem_count st < UINT32_MOD ->
  attempts k i decoder st pend results lo hi = Some (st_k, rs_k) ->
  Z.of_nat k <= elem_count st
  /\ elem_count st_k = elem_count st - Z.of_nat k.
Proof.
  induction k as [|k IH]; intros i st results st_k rs_k HC Hb A.
  - simpl in A. injection A as <- <-. lia.
  - simpl in A.
    destruct (decoder st pend (results !!! Z.to_nat i) lo hi)
      as [[ok1 st1] r1] eqn:D.
    destruct ok1; [|discriminate].
    destruct (HC _ _ _ _ _ _ _ D) as (N & B).
    rewrite Z.mod_small in B by (unfold UINT32_MOD in *; lia).
    assert (Hb1 : 0 <= elem_count st1 < UINT32_MOD)
      by (unfold UINT32_MOD in *; lia).
    destruct (IH _ _ _ _ _ HC Hb1 A) as (Le & Eq).
    lia.
Qed.

End MultiOutcome.

(** Whatever the callback, [multi_decode] with a [max_decode] that is not
    negative reports as count the length [k] of the run of successful
    attempts it made, at most [max_decode], and leaves cursor and budget
    as they are after that run, also when it fails: a failing call does
    not go back to the state before the first attempt.  It succeeds
    exactly when the count is [max_decode] or at least [min_decode], and a
    count below [max_decode] means that the next attempt failed. *)
Theorem multi_decode_outcome (R : Type) `{!Inhabited R}
    (decoder : decoder_t R) min_decode max_decode st pend results lo hi :
  0 <= max_decode ->
  let '(ok, num_decode, st', _) :=
    multi_decode min_decode max_decode decoder st pend results lo hi in
  exists (k : nat) st_k rs_k,
    attempts k 0 decoder st pend results lo hi = Some (st_k, rs_k)
    /\ num_decode = Z.of_nat k /\ num_decode <= max_decode
    /\ p_payload st' = p_payload st_k /\ elem_count st' = elem_count st_k
    /\ (ok = true <-> num_decode = max_decode \/ min_decode <= num_decode)
    /\ (num_decode < max_decode ->
        fst (fst (decoder st_k pend (rs_k !!! k) lo hi)) = false).
Proof.
  intros Hmax. unfold multi_decode.
  destruct (multi_decode_loop_outcome decoder min_decode max_decode pend
              lo hi (Z.to_nat max_decode) 0 st results)
    as (k & st_k & rs_k & ok & num & st' & rs' & E & A & K & P & B & C).
  rewrite E. exists k, st_k, rs_k.
  rewrite Z.add_0_l, Nat2Z.id in C.
  split; [exact A|].
  destruct C as [(-> & -> & ->)|(K' & -> & -> & F)].
  - rewrite Z2Nat.id by lia. repeat split; auto; lia.
  - split; [reflexivity|]. split; [lia|]. split; [exact P|].
    split; [exact B|]. split; [|intros _; exact F].
    rewrite negb_true_iff, Z.ltb_ge. lia.
Qed.

Lemma multi_decode_outcome_witness :
  let decoder := uintx32_decode false (buffer three_uints (fun _ => x00)) in
  0 <= 5
  /\ multi_decode 4 5 decoder (start 10) 7 [0; 0; 0; 0; 0] None None
     = (false, 3, mkState 6 7 [6; 4; 5; 3; 3; 2; 1; 1; 0; 0],
        [1; 100; 1000; 0; 0])
  /\ exists (k : nat) st_k rs_k,
       attempts k 0 decoder (start 10) 7 [0; 0; 0; 0; 0] None None
         = Some (st_k, rs_k)
       /\ 3 = Z.of_nat k /\ 6 = p_payload st_k /\ 7 = elem_count st_k.
Proof.
  intros decoder.
  assert (E : multi_decode 4 5 decoder (start 10) 7 [0; 0; 0; 0; 0] None None
              = (false, 3, mkState 6 7 [6; 4; 5; 3; 3; 2; 1; 1; 0; 0],
                 [1; 100; 1000; 0; 0])) by reflexivity.
  split; [lia|]. split; [exact E|].
  pose proof (multi_decode_outcome Z decoder 4 5 (start 10) 7
                [0; 0; 0; 0; 0] None None ltac:(lia)) as T.
  rewrite E in T. destruct T as (k & st_k & rs_k & A & N & _ & P & B & _).
  exists k, st_k, rs_k. auto.
Defined.

Lemma uintx32_decode_consumes_budget be mem :
  consumes_budget (uintx32_decode be mem).
Proof.
  intros st pend r lo hi st' r' H.
  pose proof (run_call_summary be mem (call_uintx32_decode r lo hi) st pend)
    as S.
  cbv zeta in S. cbn [run_call] in S. rewrite H in S. cbn [fst] in S.
  destruct S as [_ S].
  destruct (extractable mem st pend _) eqn:X.
  - apply extractable_spec in X. destruct X as (X & _).
    destruct (accepts _ _); cbn [andb] in S.
    + destruct S as (_ & _ & B & _). auto.
    + destruct S as (_ & S & _). discriminate.
  - rewrite andb_false_r in S. destruct S as (_ & S & _). discriminate.
Qed.

Lemma intx32_decode_consumes_budget be mem :
  consumes_budget (intx32_decode be mem).
Proof.
  intros st pend r lo hi st' r' H.
  pose proof (run_call_summary be mem (call_intx32_decode r lo hi) st pend)
    as S.
  cbv zeta in S. cbn [run_call] in S. rewrite H in S. cbn [fst] in S.
  destruct S as [_ S].
  destruct (extractable mem st pend _) eqn:X.
  - apply extractable_spec in X. destruct X as (X & _).
    destruct (accepts _ _); cbn [andb] in S.
    + destruct S as (_ & _ & B & _). auto.
    + destruct S as (_ & S & _). discriminate.
  - rewrite andb_false_r in S. destruct S as (_ & S & _). discriminate.
Qed.

(** The budget bounds the repetitions.  With a callback that consumes one
    unit of budget per success (as [uintx32_decode] and [intx32_decode]
    do), [multi_decode] never reports more repetitions than the budget it
    was given, however large [max_decode] is, and it leaves the budget
    smaller by exactly the count it reports. *)
Theorem multi_decode_within_budget (R : Type) `{!Inhabited R}
    (decoder : decoder_t R) min_decode max_decode st pend results lo hi :
  consumes_budget decoder ->
  0 <= max_decode ->
  0 <= elem_count st < UINT32_MOD ->
  let '(ok, num_decode, st', _) :=
    multi_decode min_decode max_decode decoder st pend results lo hi in
  0 <= num_decode <= elem_count st
  /\ elem_count st' = elem_count st - num_decode.
Proof.
  intros HC Hmax Hb. unfold multi_decode.
  destruct (multi_decode_loop_outcome decoder min_decode max_decode pend
              lo hi (Z.to_nat max_decode) 0 st results)
    as (k & st_k & rs_k & ok & num & st' & rs' & E & A & K & P & B & C).
  rewrite E.
  destruct (attempts_budget decoder pend lo hi k 0 st results st_k rs_k
              HC Hb A) as (Le & Eq).
  rewrite Z.add_0_l in C.
  destruct C as [(-> & _ & ->)|(_ & -> & _)].
  - rewrite Z2Nat.id in * by lia. lia.
  - lia.
Qed.

Lemma multi_decode_within_budget_witness :
  let decoder := uintx32_decode false (buffer three_uints (fun _ => x00)) in
  multi_decode 0 5 decoder (start 2) 7 [0; 0; 0; 0; 0] None None
    = (true, 2, mkState 3 0 [3; 3; 2; 1; 1; 0; 0], [1; 100; 0; 0; 0])
  /\ 0 <= 2 <= elem_count (start 2)
  /\ elem_count (mkState 3 0 [3; 3; 2; 1; 1; 0; 0]) = elem_count (start 2) - 2.
Proof.
  intros decoder.
  assert (E : multi_decode 0 5 decoder (start 2) 7 [0; 0; 0; 0; 0] None None
              = (true, 2, mkState 3 0 [3; 3; 2; 1; 1; 0; 0],
                 [1; 100; 0; 0; 0])) by reflexivity.
  split; [exact E|].
  pose proof (multi_decode_within_budget Z decoder 0 5 (start 2) 7
                [0; 0; 0; 0; 0] None None
                (uintx32_decode_consumes_budget false _)
                ltac:(lia) ltac:(vm_compute; split; congruence)) as T.
  rewrite E in T. exact T.
Defined.

(** ** Decoding the shortest encoding of a head *)

Lemma to_byte_value z : 0 <= z < 256 -> Z.of_N (Byte.to_N (to_byte z)) = z.
Proof.
  intros H. unfold to_byte. rewrite Z.mod_small by lia.
  destruct (Byte.of_N (Z.to_N z)) as [b|] eqn:E.
  - apply Byte.to_of_N in E. rewrite E. lia.
  - apply Byte.of_N_None_iff in E. lia.
Qed.

Lemma buffer_at l rest (i : nat) :
  (i < length l)%nat -> buffer l rest (Z.of_nat i) = nth i l x00.
Proof.
  intros H. unfold buffer.
  destruct (Z.leb_spec 0 (Z.of_nat i)); [|lia].
  destruct (Z.ltb_spec (Z.of_nat i) (Z.of_nat (length l))); [|lia].
  cbn [andb]. rewrite Nat2Z.id. reflexivity.
Qed.

(** Reading back a run of bytes placed in a buffer. *)
Lemma buffer_run l : forall pre more rest,
  Forall (fun b => 0 <= b < 256) l ->
  map (byte_at (buffer (pre ++ map to_byte l ++ more) rest))
      (addresses (Z.of_nat (length pre)) (length l)) = l.
Proof.
  induction l as [|x l IH]; intros pre more rest F; [reflexivity|].
  inversion F as [|? ? Hx Fl]; subst.
  cbn [length addresses map]. f_equal.
  - unfold byte_at. rewrite buffer_at
      by (rewrite length_app; simpl; lia).
    rewrite app_nth2 by lia. rewrite Nat.sub_diag. simpl.
    apply to_byte_value. exact Hx.
  - specialize (IH (pre ++ [to_byte x]) more rest Fl).
    rewrite <- app_assoc in IH. simpl in IH.
    rewrite length_app in IH. simpl in IH.
    replace (Z.of_nat (length pre + 1)) with (Z.of_nat (length pre) + 1)
      in IH by lia.
    exact IH.
Qed.

Lemma le_bytes_range k : forall n,
  Forall (fun b => 0 <= b < 256) (le_bytes k n).
Proof.
  induction k as [|k IH]; intros n; simpl; constructor; [|apply IH].
  apply Z.mod_pos_bound. lia.
Qed.

Lemma le_value_le_bytes k : forall n,
  le_value (le_bytes k n) = n mod 256 ^ Z.of_nat k.
Proof.
  induction k as [|k IH]; intros n.
  - simpl. rewrite Z.mod_1_r. reflexivity.
  - cbn [le_bytes le_value]. rewrite IH.
    rewrite Nat2Z.inj_succ, Z.pow_succ_r by lia.
    rewrite Z.rem_mul_r by lia. reflexivity.
Qed.

Lemma be_value_reverse_le_bytes k n :
  0 <= n < 256 ^ Z.of_nat k -> be_value (reverse (le_bytes k n)) = n.
Proof.
  intros H. unfold be_value. rewrite reverse_involutive, le_value_le_bytes.
  apply Z.mod_small. exact H.
Qed.

Lemma header_fields_of major_type a :
  0 <= major_type <= 7 -> 0 <= a < 32 ->
  0 <= 32 * major_type + a < 256
  /\ MAJOR_TYPE (32 * major_type + a) = major_type
  /\ ADDITIONAL (32 * major_type + a) = a.
Proof.
  intros Hm Ha. rewrite MAJOR_TYPE_div, ADDITIONAL_mod.
  replace (32 * major_type + a) with (a + major_type * 32) by lia.
  rewrite Z.div_add, Z.mod_add by lia.
  rewrite (Z.div_small a), (Z.mod_small a) by lia.
  rewrite Z.mod_small by lia. lia.
Qed.

(** The shape of a head: a header byte and the argument in the extension
    the header announces. *)
Lemma encode_head_shape major_type n :
  0 <= n < 2 ^ 64 ->
  exists a ext,
    encode_head major_type n = map to_byte ((32 * major_type + a) :: ext)
    /\ 0 <= a < 32
    /\ Forall (fun b => 0 <= b < 256) ext
    /\ extension_len a = Z.of_nat (length ext)
    /\ (if extension_len a =? 0 then a else be_value ext) = n
    /\ (n < 2 ^ 32 -> (length ext <= 4)%nat).
Proof.
  intros Hn. unfold encode_head.
  destruct (Z.ltb_spec n 24);
    [exists n, []; repeat split; auto; try lia;
     unfold extension_len, VALUE_IN_HEADER;
     destruct (Z.gtb_spec n 23); try lia; reflexivity|].
  destruct (Z.ltb_spec n (2 ^ 8));
    [exists 24, (reverse (le_bytes 1 n))
    |destruct (Z.ltb_spec n (2 ^ 16));
       [exists 25, (reverse (le_bytes 2 n))
       |destruct (Z.ltb_spec n (2 ^ 32));
          [exists 26, (reverse (le_bytes 4 n))
          |exists 27, (reverse (le_bytes 8 n))]]].
  all: split; [reflexivity|]; split; [lia|].
  all: split; [apply Forall_reverse, le_bytes_range|].
  all: rewrite length_reverse, length_le_bytes.
  all: split; [reflexivity|].
  all: split; [|simpl; lia].
  all: change (extension_len _ =? 0) with false; cbn iota.
  all: apply be_value_reverse_le_bytes; simpl Z.of_nat; lia.
Qed.

(** What a buffer holds at a cursor that stands on a head. *)
Lemma buffer_head h ext pre more rest st :
  0 <= h < 256 -> Forall (fun b => 0 <= b < 256) ext ->
  p_payload st = Z.of_nat (length pre) ->
  let mem := buffer (pre ++ map to_byte (h :: ext) ++ more) rest in
  header mem st = h
  /\ extension mem st (Z.of_nat (length ext)) = ext.
Proof.
  intros Hh Fe Hp mem.
  assert (F : Forall (fun b => 0 <= b < 256) (h :: ext))
    by (constructor; assumption).
  pose proof (buffer_run (h :: ext) pre more rest F) as B.
  cbn [length addresses] in B. fold mem in B.
  cbn [map] in B. injection B as B1 B2.
  unfold header, extension. rewrite Hp, Nat2Z.id. auto.
Qed.

(** The decoders' view of a buffer that holds, at the cursor, the shortest
    head for [major_type] and [n]. *)
Lemma encode_head_view major_type n pre more rest st :
  0 <= major_type <= 7 -> 0 <= n < 2 ^ 64 ->
  p_payload st = Z.of_nat (length pre) ->
  let mem := buffer (pre ++ encode_head major_type n ++ more) rest in
  MAJOR_TYPE (header mem st) = major_type
  /\ header_value mem st = n
  /\ 1 + extension_len (ADDITIONAL (header mem st))
     = Z.of_nat (length (encode_head major_type n))
  /\ (n < 2 ^ 32 -> extension_len (ADDITIONAL (header mem st)) <= 4)
  /\ extension_len (ADDITIONAL (header mem st)) <= 8.
Proof.
  intros Hm Hn Hp mem. subst mem.
  destruct (encode_head_shape major_type n Hn)
    as (a & ext & -> & Ha & Fe & L & V & W).
  destruct (header_fields_of major_type a Hm Ha) as (Hh & M & A).
  destruct (buffer_head (32 * major_type + a) ext pre more rest st Hh Fe Hp)
    as (H1 & H2).
  unfold header_value. rewrite H1, M, A, L, H2.
  rewrite <- L, V. rewrite length_map. cbn [length].
  pose proof (extension_len_range a).
  repeat split; try lia.
Qed.

(** [uintx32_decode] at a cursor that stands on the shortest encoding of
    [n]. *)
Lemma uintx32_decode_at_head be rest pre more n st pend res0 lo hi :
  0 <= n < 2 ^ 32 -> 0 < elem_count st < 2 ^ 32 ->
  p_payload st = Z.of_nat (length pre) ->
  p_payload st + Z.of_nat (length (encode_head CBOR_MAJOR_TYPE_PINT n))
    <= pend ->
  let mem := buffer (pre ++ encode_head CBOR_MAJOR_TYPE_PINT n ++ more) rest in
  exists st',
    uintx32_decode be mem st pend res0 lo hi
      = (PTR_VALUE_IN_RANGE n lo hi, st', n)
    /\ p_payload st'
       = p_payload st
         + Z.of_nat (length (encode_head CBOR_MAJOR_TYPE_PINT n))
    /\ elem_count st' = elem_count st - 1.
Proof.
  intros Hn Hb Hp He mem.
  destruct (encode_head_view CBOR_MAJOR_TYPE_PINT n pre more rest st
              ltac:(unfold CBOR_MAJOR_TYPE_PINT; lia) ltac:(lia) Hp)
    as (M & V & U & W & _).
  specialize (W ltac:(lia)). fold mem in M, V, U, W.
  assert (X : extractable mem st pend 4 = true)
    by (apply extractable_spec; lia).
  unfold uintx32_decode, deref, load_u8, FAIL, cbor_decode_trace.
  fold (byte_at mem (p_payload st)). fold (header mem st).
  fold (header_loaded st).
  rewrite M. cbn [Z.eqb CBOR_MAJOR_TYPE_PINT negb].
  destruct (uint32_decode_state be mem (header_loaded st) pend res0 lo hi)
    as (r & E & R).
  change (header_value mem (header_loaded st)) with (header_value mem st)
    in E, R.
  change (extractable mem (header_loaded st) pend 4)
    with (extractable mem st pend 4) in E, R.
  change (header mem (header_loaded st)) with (header mem st) in E.
  rewrite X, V in E, R. cbn [andb] in E. rewrite E.
  destruct (R eq_refl) as (-> & _).
  assert (B : (elem_count st - 1) mod UINT32_MOD = elem_count st - 1)
    by (apply Z.mod_small; unfold UINT32_MOD; lia).
  destruct (PTR_VALUE_IN_RANGE n lo hi); cbn [negb];
    eexists; (split; [reflexivity|]);
    cbn [extracted header_loaded p_payload elem_count];
    (split; [lia|exact B]).
Qed.

(** [value_extract] inverts the shortest head.  Where the cursor stands on
    the shortest head for any major type and any [n] below [2^64], and
    that head lies before the end pointer, [value_extract] into eight
    bytes succeeds whatever surrounds the head, leaves a buffer that reads
    as [n] on the host, and has consumed exactly the bytes of the head and
    one unit of budget. *)
Theorem value_extract_inverts_head be rest pre more major_type n st pend res :
  0 <= major_type <= 7 -> 0 <= n < 2 ^ 64 ->
  0 < elem_count st < 2 ^ 32 -> length res = 8%nat ->
  p_payload st = Z.of_nat (length pre) ->
  p_payload st + Z.of_nat (length (encode_head major_type n)) <= pend ->
  let mem := buffer (pre ++ encode_head major_type n ++ more) rest in
  exists st' res',
    value_extract be mem st pend res = (true, st', res')
    /\ load be res' = n
    /\ p_payload st'
       = p_payload st + Z.of_nat (length (encode_head major_type n))
    /\ elem_count st' = elem_count st - 1.
Proof.
  intros Hm Hn Hb Hl Hp He mem.
  destruct (encode_head_view major_type n pre more rest st Hm Hn Hp)
    as (_ & V & U & _ & W).
  fold mem in V, U, W.
  destruct (value_extract_state be mem st pend res) as (res' & E & L).
  rewrite Hl in E, L.
  assert (X : extractable mem st pend 8 = true)
    by (apply extractable_spec; lia).
  rewrite X in E, L. rewrite E. do 2 eexists. split; [reflexivity|].
  split; [rewrite L by (auto; lia); exact V|].
  cbn [extracted p_payload elem_count].
  split; [lia|]. apply Z.mod_small. unfold UINT32_MOD. lia.
Qed.

Lemma value_extract_inverts_head_witness :
  exists st' res',
    value_extract false
      (buffer ([x00] ++ encode_head 3 (2 ^ 40) ++ [x41]) (fun _ => x00))
      (mkState 1 1 []) 10 [7; 7; 7; 7; 7; 7; 7; 7] = (true, st', res')
    /\ load false res' = 2 ^ 40
    /\ p_payload st'
       = p_payload (mkState 1 1 [])
         + Z.of_nat (length (encode_head 3 (2 ^ 40)))
    /\ elem_count st' = elem_count (mkState 1 1 []) - 1.
Proof.
  apply (value_extract_inverts_head false (fun _ => x00) [x00] [x41] 3
           (2 ^ 40) (mkState 1 1 []) 10 [7; 7; 7; 7; 7; 7; 7; 7]);
    try reflexivity; try (cbn; lia); vm_compute; congruence.
Defined.

(** [uintx32_decode] inverts the shortest encoding of an unsigned integer.
    On a buffer that starts with the shortest encoding of any [n] below
    [2^32], whatever follows it, [uintx32_decode] returns [n], consumes
    exactly the bytes of the encoding and one unit of budget, and reports
    success exactly when [n] meets the bounds that are present. *)
Theorem uintx32_decode_inverts_head be rest more n budget res0 lo hi :
  0 <= n < 2 ^ 32 -> 0 < budget < 2 ^ 32 ->
  let bytes := encode_head CBOR_MAJOR_TYPE_PINT n ++ more in
  exists st',
    uintx32_decode be (buffer bytes rest) (start budget)
      (Z.of_nat (length bytes)) res0 lo hi
      = (PTR_VALUE_IN_RANGE n lo hi, st', n)
    /\ p_payload st' = Z.of_nat (length (encode_head CBOR_MAJOR_TYPE_PINT n))
    /\ elem_count st' = budget - 1.
Proof.
  intros Hn Hb bytes. subst bytes.
  apply (uintx32_decode_at_head be rest [] more n (start budget)
           (Z.of_nat (length (encode_head CBOR_MAJOR_TYPE_PINT n ++ more)))
           res0 lo hi Hn Hb eq_refl).
  cbn [start p_payload]. rewrite length_app. lia.
Qed.

Lemma uintx32_decode_inverts_head_witness :
  exists st',
    uintx32_decode false
      (buffer (encode_head CBOR_MAJOR_TYPE_PINT 65536 ++ [])
         (fun _ => x00))
      (start 1)
      (Z.of_nat (length (encode_head CBOR_MAJOR_TYPE_PINT 65536 ++ [])))
      0 None None
      = (PTR_VALUE_IN_RANGE 65536 None None, st', 65536)
    /\ p_payload st'
       = Z.of_nat (length (encode_head CBOR_MAJOR_TYPE_PINT 65536))
    /\ elem_count st' = 1 - 1.
Proof.
  apply (uintx32_decode_inverts_head false (fun _ => x00) [] 65536 1 0
           None None); lia.
Defined.

(** [intx32_decode] on the shortest head of an integer, without bounds.
    For the major type of a positive integer and an argument [n] below
    [2^31] it returns [n]; for the major type of a negative integer and an
    argument [n] below [2^31] it returns [1 - n], which is the integer
    that this head encodes ([-1 - n]) plus two; for an argument of [2^31]
    or more, below [2^32], it fails.  In every case the head and one unit
    of budget are consumed. *)
Theorem intx32_decode_on_head be rest more (negative : bool) n budget res0 :
  0 <= n < 2 ^ 32 -> 0 < budget < 2 ^ 32 ->
  let major_type :=
    if negative then CBOR_MAJOR_TYPE_NINT else CBOR_MAJOR_TYPE_PINT in
  let bytes := encode_head major_type n ++ more in
  exists st' r,
    intx32_decode be (buffer bytes rest) (start budget)
      (Z.of_nat (length bytes)) res0 None None = (n <? 2 ^ 31, st', r)
    /\ (n < 2 ^ 31 ->
        r = (if negative then 1 - n else n)
        /\ (negative = true -> r = (-1 - n) + 2))
    /\ p_payload st' = Z.of_nat (length (encode_head major_type n))
    /\ elem_count st' = budget - 1.
Proof.
  intros Hn Hb major_type bytes. subst bytes.
  assert (Hm : 0 <= major_type <= 7)
    by (subst major_type; destruct negative;
        unfold CBOR_MAJOR_TYPE_NINT, CBOR_MAJOR_TYPE_PINT; lia).
  destruct (encode_head_view major_type n [] more rest (start budget) Hm
              ltac:(lia) eq_refl) as (M & V & U & W & _).
  specialize (W ltac:(lia)). cbn [app] in M, V, U, W.
  set (mem := buffer (encode_head major_type n ++ more) rest) in *.
  set (pend := Z.of_nat (length (encode_head major_type n ++ more))).
  assert (X : extractable mem (start budget) pend 4 = true).
  { apply extractable_spec. cbn [start p_payload elem_count].
    subst pend. rewrite length_app. lia. }
  unfold intx32_decode, deref, load_u8, FAIL, cbor_decode_trace.
  fold (byte_at mem (p_payload (start budget))).
  fold (header mem (start budget)). fold (header_loaded (start budget)).
  destruct (int32_decode_state be mem (header_loaded (start budget)) pend
              res0 None None) as (r & E & R).
  change (header_value mem (header_loaded (start budget)))
    with (header_value mem (start budget)) in E, R.
  change (extractable mem (header_loaded (start budget)) pend 4)
    with (extractable mem (start budget) pend 4) in E, R.
  change (header mem (header_loaded (start budget)))
    with (header mem (start budget)) in E, R.
  rewrite X, V, M in E, R. rewrite M.
  unfold PTR_VALUE_IN_RANGE in E. cbn [andb] in E, R. rewrite andb_true_r in E.
  rewrite E.
  assert (B : (budget - 1) mod UINT32_MOD = budget - 1)
    by (apply Z.mod_small; unfold UINT32_MOD; lia).
  assert (G : negb (major_type =? CBOR_MAJOR_TYPE_PINT)
              && negb (major_type =? CBOR_MAJOR_TYPE_NINT) = false)
    by (subst major_type; destruct negative; reflexivity).
  rewrite G.
  destruct (Z.ltb_spec n (2 ^ 31)) as [S|S]; cbn [negb];
    do 2 eexists; (split; [reflexivity|]);
    cbn [extracted header_loaded start p_payload elem_count];
    (split; [|split; [lia|exact B]]); [|lia].
  intros _. destruct (R eq_refl) as (-> & _).
  subst major_type. destruct negative; cbn; split; intros; try lia; congruence.
Qed.

Lemma intx32_decode_on_head_witness :
  exists st' r,
    intx32_decode false
      (buffer (encode_head CBOR_MAJOR_TYPE_NINT 99 ++ []) (fun _ => x00))
      (start 1)
      (Z.of_nat (length (encode_head CBOR_MAJOR_TYPE_NINT 99 ++ [])))
      0 None None = (99 <? 2 ^ 31, st', r)
    /\ (99 < 2 ^ 31 -> r = 1 - 99 /\ (true = true -> r = (-1 - 99) + 2))
    /\ p_payload st' = Z.of_nat (length (encode_head CBOR_MAJOR_TYPE_NINT 99))
    /\ elem_count st' = 1 - 1.
Proof.
  apply (intx32_decode_on_head false (fun _ => x00) [] true 99 1 0); lia.
Defined.

(** ** A list of unsigned integers through [multi_decode] *)

Lemma length_encode_uints_cons n ns :
  length (encode_uints (n :: ns))
  = (length (encode_head CBOR_MAJOR_TYPE_PINT n) + length (encode_uints ns))%nat.
Proof. unfold encode_uints. simpl. apply length_app. Qed.

(** Where the cursor stands on the encodings of [ns], the attempts of
    [uintx32_decode] succeed once per element, fill the slots from [i] on
    with the elements and arrive after the last encoding. *)
Lemma attempts_encode_uints be rest more pend : forall ns pre (i : nat) st results,
  Forall (fun n => 0 <= n < 2 ^ 32) ns ->
  p_payload st = Z.of_nat (length pre) ->
  Z.of_nat (length ns) <= elem_count st < 2 ^ 32 ->
  (i + length ns <= length results)%nat ->
  p_payload st + Z.of_nat (length (encode_uints ns)) <= pend ->
  exists st_k,
    attempts (length ns) (Z.of_nat i)
      (uintx32_decode be (buffer (pre ++ encode_uints ns ++ more) rest))
      st pend results None None
      = Some (st_k, take i results ++ ns ++ drop (i + length ns) results)
    /\ p_payload st_k = p_payload st + Z.of_nat (length (encode_uints ns))
    /\ elem_count st_k = elem_count st - Z.of_nat (length ns).
Proof.
  induction ns as [|n ns IH]; intros pre i st results F Hp Hb Hr He.
  - exists st. cbn [length attempts encode_uints map concat app].
    rewrite Nat.add_0_r, take_drop. repeat split; lia.
  - inversion F as [|? ? Hn Fn]; subst.
    rewrite length_encode_uints_cons in He. cbn [length] in Hb, Hr.
    assert (Eb : pre ++ encode_uints (n :: ns) ++ more
                 = pre ++ encode_head CBOR_MAJOR_TYPE_PINT n
                     ++ (encode_uints ns ++ more)).
    { unfold encode_uints. simpl. rewrite <- app_assoc. reflexivity. }
    destruct (uintx32_decode_at_head be rest pre (encode_uints ns ++ more) n
                st pend (results !!! i) None None Hn ltac:(lia) Hp
                ltac:(lia)) as (st1 & D & P1 & B1).
    cbv zeta in D. rewrite <- Eb in D.
    cbn [length attempts]. rewrite Nat2Z.id, D.
    change (PTR_VALUE_IN_RANGE n None None) with true. cbn iota.
    assert (Eb' : pre ++ encode_uints (n :: ns) ++ more
                  = (pre ++ encode_head CBOR_MAJOR_TYPE_PINT n)
                      ++ encode_uints ns ++ more)
      by (rewrite Eb, app_assoc; reflexivity).
    rewrite Eb'.
    destruct (IH (pre ++ encode_head CBOR_MAJOR_TYPE_PINT n) (S i) st1
                (<[i := n]> results) Fn)
      as (st_k & A & Pk & Bk).
    + rewrite length_app. lia.
    + lia.
    + rewrite length_insert. lia.
    + lia.
    + exists st_k.
      replace (Z.of_nat i + 1) with (Z.of_nat (S i)) by lia.
      rewrite A. split; [|rewrite length_encode_uints_cons; lia].
      do 2 f_equal.
      rewrite (take_S_r _ _ n) by (apply list_lookup_insert_eq; lia).
      rewrite take_insert_ge by lia. rewrite drop_insert_lt by lia.
      rewrite <- app_assoc. simpl.
      replace (i + S (length ns))%nat with (S (i + length ns)) by lia.
      reflexivity.
Qed.

(** [multi_decode] with [uintx32_decode] inverts the encoding of a list.
    On a buffer that consists of the shortest encodings of the numbers
    [ns], each below [2^32], with room for them in the storage, a budget
    of at least their number and a [max_decode] of at least their number,
    [multi_decode] reports their number as count, leaves the numbers in
    order in the first slots, the cursor at the end of the buffer and the
    budget smaller by their number; it succeeds exactly when their number
    is [max_decode] or at least [min_decode]. *)
Theorem multi_decode_inverts_uints be rest ns min_decode max_decode budget
    results :
  Forall (fun n => 0 <= n < 2 ^ 32) ns ->
  Z.of_nat (length ns) <= max_decode ->
  Z.of_nat (length ns) <= budget < 2 ^ 32 ->
  (length ns <= length results)%nat ->
  let bytes := encode_uints ns in
  let '(ok, num_decode, st', results') :=
    multi_decode min_decode max_decode
      (uintx32_decode be (buffer bytes rest)) (start budget)
      (Z.of_nat (length bytes)) results None None in
  num_decode = Z.of_nat (length ns)
  /\ take (length ns) results' = ns
  /\ p_payload st' = Z.of_nat (length bytes)
  /\ elem_count st' = budget - Z.of_nat (length ns)
  /\ (ok = true <->
      Z.of_nat (length ns) = max_decode
      \/ min_decode <= Z.of_nat (length ns)).
Proof.
  intros F Hmax Hb Hr bytes. subst bytes.
  set (pend := Z.of_nat (length (encode_uints ns))).
  destruct (attempts_encode_uints be rest [] pend ns [] 0 (start budget)
              results F eq_refl Hb ltac:(lia)
              ltac:(cbn [start p_payload]; lia))
    as (st_k & A & Pk & Bk).
  cbn [app] in A. rewrite app_nil_r in A.
  cbn [start p_payload elem_count] in Pk, Bk.
  set (mem := buffer (encode_uints ns) rest) in *.
  change (Z.of_nat 0) with 0 in A.
  change (take 0 results) with (@nil Z) in A. cbn [app Nat.add] in A.
  set (rs_k := ns ++ drop (length ns) results) in *.
  assert (T : take (length ns) rs_k = ns)
    by (subst rs_k; apply take_app_length).
  destruct (Z.eq_dec (Z.of_nat (length ns)) max_decode) as [Em|Nm].
  - unfold multi_decode. rewrite <- Em, Nat2Z.id.
    rewrite (multi_decode_loop_all _ min_decode (Z.of_nat (length ns)) pend
               None None _ _ _ _ _ _ A).
    repeat split; auto; lia.
  - pose proof (run_call_summary be mem
                  (call_uintx32_decode (rs_k !!! length ns) None None)
                  st_k pend) as S.
    cbv zeta in S. cbn [run_call] in S.
    destruct (uintx32_decode be mem st_k pend (rs_k !!! length ns) None None)
      as [[ok3 st3] r3] eqn:D.
    cbn [fst] in S. destruct S as [_ S].
    assert (X : extractable mem st_k pend
                  (result_width (call_uintx32_decode (rs_k !!! length ns)
                                   None None)) = false).
    { destruct (extractable mem st_k pend _) eqn:X; [|reflexivity].
      apply extractable_spec in X.
      pose proof (extension_len_range (ADDITIONAL (header mem st_k))). lia. }
    rewrite X, andb_false_r in S. destruct S as (_ & -> & _).
    pose proof (multi_decode_loop_stop _ min_decode max_decode pend None None
                  (length ns) (Z.to_nat max_decode) 0 (start budget) results
                  st_k rs_k st3 r3 ltac:(lia) A) as M.
    rewrite Z.add_0_l, Nat2Z.id in M. specialize (M D).
    unfold multi_decode. rewrite M.
    cbn [p_payload elem_count].
    split; [reflexivity|]. split; [rewrite take_insert_ge by lia; exact T|].
    split; [lia|]. split; [lia|].
    rewrite negb_true_iff, Z.ltb_ge. lia.
Qed.

Lemma multi_decode_inverts_uints_witness :
  let ns := [1; 100; 1000; 0x2000000c] in
  let '(ok, num_decode, st', results') :=
    multi_decode 1 5
      (uintx32_decode false (buffer (encode_uints ns) (fun _ => x00)))
      (start 10) (Z.of_nat (length (encode_uints ns))) [0; 0; 0; 0; 0]
      None None in
  num_decode = Z.of_nat (length ns)
  /\ take (length ns) results' = ns
  /\ p_payload st' = Z.of_nat (length (encode_uints ns))
  /\ elem_count st' = 10 - Z.of_nat (length ns)
  /\ (ok = true <->
      Z.of_nat (length ns) = 5 \/ 1 <= Z.of_nat (length ns)).
Proof.
  intros ns.
  apply (multi_decode_inverts_uints false (fun _ => x00) ns 1 5 10
           [0; 0; 0; 0; 0]).
  - subst ns. repeat constructor; lia.
  - subst ns. simpl. lia.
  - subst ns. simpl. lia.
  - subst ns. simpl. lia.
Defined.

(** ** A string through [strx_decode] *)

(** [strx_decode] inverts the encoding of a string.  On a buffer that
    starts with the shortest head of a byte string or of a text string
    whose argument is the length of [payload], followed by [payload] and
    by anything else, [strx_decode] without bounds succeeds with a view
    whose length is the length of [payload] and whose pointer is the
    address of its first byte (the bytes of the view are those of
    [payload]).  The cursor it leaves is the address right after the
    payload as a 32-bit pointer holds it: that address itself whenever
    head and payload fit below 2^32, as they do in any buffer the target
    can address. *)
Theorem strx_decode_inverts_string be rest (text : bool) payload more budget
    res0 :
  Z.of_nat (length payload) < 2 ^ 32 -> 0 < budget < 2 ^ 32 ->
  let major_type :=
    if text then CBOR_MAJOR_TYPE_TSTR else CBOR_MAJOR_TYPE_BSTR in
  let head := encode_head major_type (Z.of_nat (length payload)) in
  let bytes := head ++ payload ++ more in
  let mem := buffer bytes rest in
  exists st',
    strx_decode be mem (start budget) (Z.of_nat (length bytes)) res0 None None
      = (true, st',
         mkString (Z.of_nat (length payload)) (Z.of_nat (length head)))
    /\ p_payload st'
       = Z.of_nat (length head + length payload) mod UINT32_MOD
    /\ (Z.of_nat (length head + length payload) < 2 ^ 32 ->
        p_payload st' = Z.of_nat (length head + length payload))
    /\ elem_count st' = budget - 1
    /\ forall j, (j < length payload)%nat ->
         mem (Z.of_nat (length head) + Z.of_nat j) = nth j payload x00.
Proof.
  intros Hl Hb major_type head bytes mem.
  assert (Hm : 0 <= major_type <= 7)
    by (subst major_type; destruct text;
        unfold CBOR_MAJOR_TYPE_TSTR, CBOR_MAJOR_TYPE_BSTR; lia).
  destruct (encode_head_view major_type (Z.of_nat (length payload)) []
              (payload ++ more) rest (start budget) Hm ltac:(lia) eq_refl)
    as (M & V & U & W & _).
  specialize (W ltac:(lia)). cbn [app] in M, V, U, W.
  fold head in M, V, U, W. fold bytes in M, V, U, W. fold mem in M, V, U, W.
  set (pend := Z.of_nat (length bytes)).
  assert (Lb : length bytes
               = (length head + (length payload + length more))%nat)
    by (subst bytes; rewrite !length_app; reflexivity).
  assert (X : extractable mem (start budget) pend 4 = true).
  { apply extractable_spec. cbn [start p_payload elem_count].
    subst pend. lia. }
  unfold strx_decode, strx_start_decode, size_decode, deref, load_u8, FAIL,
    cbor_decode_trace.
  fold (byte_at mem (p_payload (start budget))).
  fold (header mem (start budget)). fold (header_loaded (start budget)).
  destruct (uint32_decode_state be mem (header_loaded (start budget)) pend
              (len res0) None None) as (r & E & R).
  change (header_value mem (header_loaded (start budget)))
    with (header_value mem (start budget)) in E, R.
  change (extractable mem (header_loaded (start budget)) pend 4)
    with (extractable mem (start budget) pend 4) in E, R.
  change (header mem (header_loaded (start budget)))
    with (header mem (start budget)) in E.
  rewrite X, V in E, R. rewrite M.
  change (PTR_VALUE_IN_RANGE _ None None) with true in E. cbn [andb] in E.
  rewrite E. destruct (R eq_refl) as (-> & _).
  assert (G : negb (major_type =? CBOR_MAJOR_TYPE_BSTR)
              && negb (major_type =? CBOR_MAJOR_TYPE_TSTR) = false)
    by (subst major_type; destruct text; reflexivity).
  rewrite G. cbn [negb].
  assert (B : (budget - 1) mod UINT32_MOD = budget - 1)
    by (apply Z.mod_small; unfold UINT32_MOD; lia).
  assert (A : (0 + 1 + extension_len (ADDITIONAL (header mem (start budget)))
               + Z.of_nat (length payload))
              = Z.of_nat (length head + length payload)) by lia.
  eexists. split; [|split; [|split; [|split]]].
  - cbn [extracted header_loaded start p_payload elem_count len value advance
         advance_payload].
    do 2 f_equal. lia.
  - cbn [extracted header_loaded start p_payload elem_count len value advance
         advance_payload].
    rewrite A. reflexivity.
  - intros Hs.
    cbn [extracted header_loaded start p_payload elem_count len value advance
         advance_payload].
    rewrite A. apply Z.mod_small. unfold UINT32_MOD. lia.
  - cbn [extracted header_loaded start p_payload elem_count len value advance
         advance_payload].
    exact B.
  - intros j Hj. rewrite <- Nat2Z.inj_add. unfold mem.
    rewrite buffer_at by lia. subst bytes.
    rewrite app_nth2 by lia.
    replace (length head + j - length head)%nat with j by lia.
    apply app_nth1. exact Hj.
Qed.

Lemma strx_decode_inverts_string_witness :
  let payload := [x61; x62; x63] in
  let head := encode_head CBOR_MAJOR_TYPE_TSTR 3 in
  let mem := buffer (head ++ payload ++ []) (fun _ => x00) in
  exists st',
    strx_decode false mem (start 1) (Z.of_nat (length (head ++ payload ++ [])))
      (mkString 0 0) None None
      = (true, st', mkString 3 (Z.of_nat (length head)))
    /\ p_payload st' = Z.of_nat (length head + length payload)
    /\ elem_count st' = 1 - 1
    /\ forall j, (j < length payload)%nat ->
         mem (Z.of_nat (length head) + Z.of_nat j) = nth j payload x00.
Proof.
  intros payload head mem.
  destruct (strx_decode_inverts_string false (fun _ => x00) true payload [] 1
              (mkString 0 0)) as (st' & E & _ & P & B & V);
    [vm_compute; reflexivity|lia|].
  exists st'. split; [exact E|]. split; [|split; [exact B|exact V]].
  apply P. vm_compute. reflexivity.
Defined.

(** ** The primitive decoder *)


